(** * A circular FIFO queue in an array, and its truncation policy

  Shallow embedding of [enqueue], [dequeue] and [check_and_truncate] of
  [mm1_example.c] (the first two are the same in [fifo_example.c], which
  only adds tracing output), with the initial state and the occupancy
  count of [main] and [show_queue]. *)

From Stdlib Require Import Ascii.
From stdpp Require Import base numbers list strings.

Local Open Scope Z_scope.

Module Fifo.

(** ** The data *)

Section queue.
Context {A : Type}.

(** An array slot is a [char *]: [NULL], or the address of an element.
    Elements are opaque, so a non-null pointer is identified with the
    element it points to. *)
Definition ptr : Type := option A.
Definition NULL : ptr := None.

(** The variables the functions work on: the array [fifo] and the two
    indices behind [p_head] and [p_tail]. The array length [size] is passed
    next to them, as in the C code. *)
Record state : Type := State { fifo : list ptr; head : Z; tail : Z }.

(** [a[i]] as an rvalue. An index outside the array is undefined behaviour
    in C; the model reads [NULL] there. Every state the theorems below
    speak about has its indices inside the array ([wf]). *)
Definition rd (a : list ptr) (i : Z) : ptr :=
  if decide (0 ≤ i) then default NULL (a !! Z.to_nat i) else NULL.

(** [a[i] = p]. Outside the array the model leaves the array as it is. *)
Definition wr (a : list ptr) (i : Z) (p : ptr) : list ptr :=
  if decide (0 ≤ i) then <[Z.to_nat i := p]> a else a.

(** A pointer used as a C condition. *)
Definition truthy (p : ptr) : bool :=
  match p with Some _ => true | None => false end.

(** [main]: an array of [array_size] null pointers, [head = tail = 0]. *)
Definition empty (size : Z) : state :=
  State (replicate (Z.to_nat size) NULL) 0 0.

(** ** The operations *)

(** [int enqueue(fifo, size, p_head, p_tail, arrival)]: the new state and
    the returned status, 0 for "no error" and 1 for "overflow". [%] on the
    non-negative [int]s of a well-formed state is [Z.rem]; [*p_tail + 1] is
    at most [size], so it does not leave the range of [int]. *)
Definition enqueue (size : Z) (q : state) (arrival : ptr) : state * Z :=
  let fifo1 := wr (fifo q) (tail q) arrival in
  let tail1 := Z.rem (tail q + 1) size in
  let q1 := State fifo1 (head q) tail1 in
  if negb (truthy (rd fifo1 tail1)) then (q1, 0) else (q1, 1).

(** [char *dequeue(fifo, size, p_head, p_tail)]: the new state and the
    returned pointer, [NULL] when the head slot is empty. *)
Definition dequeue (size : Z) (q : state) : state * ptr :=
  let departure := rd (fifo q) (head q) in
  if truthy departure then
    let fifo1 := wr (fifo q) (head q) NULL in
    if decide (head q ≠ tail q)
    then (State fifo1 (Z.rem (head q + 1) size) (tail q), departure)
    else (State fifo1 (head q) (tail q), departure)
  else (q, departure).

(** The counting loop of [check_and_truncate] and [show_queue]:
    [for (i = 0; i < size; i++) if (fifo[i]) queue_length++;]
    [scan k i a len] runs the [k] remaining iterations from index [i]. *)
Fixpoint scan (k : nat) (i : Z) (a : list ptr) (len : Z) : Z :=
  match k with
  | O => len
  | S k' => scan k' (i + 1) a (if truthy (rd a i) then len + 1 else len)
  end.

Definition queue_length (size : Z) (a : list ptr) : Z :=
  scan (Z.to_nat size) 0 a 0.

(** The body of the [while] loop of [check_and_truncate]: one eviction.
    The local counter is kept by [truncate_loop]. *)
Definition evict (size : Z) (q : state) : state :=
  State (wr (fifo q) (head q) NULL) (Z.rem (head q + 1) size) (tail q).

(** The guard of that loop: [fifo[*p_head] && queue_length > limit]. *)
Definition guard (q : state) (len limit : Z) : bool :=
  truthy (rd (fifo q) (head q)) && bool_decide (len > limit).

(** The [while] loop, with a bound on the number of iterations: [None]
    means the bound was reached with the guard still true. *)
Fixpoint truncate_loop (fuel : nat) (size : Z) (q : state) (len limit : Z)
    : option state :=
  if guard q len limit then
    match fuel with
    | O => None
    | S fuel' => truncate_loop fuel' size (evict size q) (len - 1) limit
    end
  else Some q.

(** [void check_and_truncate(fifo, size, p_head, limit)]. It has no
    [p_tail] parameter and returns nothing. One iteration per array slot is
    enough fuel ([truncate_loop_fuel] below). *)
Definition check_and_truncate (size : Z) (q : state) (limit : Z)
    : option state :=
  truncate_loop (length (fifo q)) size q (queue_length size (fifo q)) limit.

(** ** Sequences of calls *)

(** Consecutive [enqueue] calls, one per element, with their statuses. *)
Fixpoint enqueue_all (size : Z) (q : state) (es : list A) : state * list Z :=
  match es with
  | [] => (q, [])
  | e :: es' =>
      let '(q1, status) := enqueue size q (Some e) in
      let '(q2, statuses) := enqueue_all size q1 es' in
      (q2, status :: statuses)
  end.

(** [n] consecutive [dequeue] calls, with the returned pointers. *)
Fixpoint dequeue_n (size : Z) (q : state) (n : nat) : state * list ptr :=
  match n with
  | O => (q, [])
  | S n' =>
      let '(q1, departure) := dequeue size q in
      let '(q2, departures) := dequeue_n size q1 n' in
      (q2, departure :: departures)
  end.

End queue.

Arguments ptr : clear implicits.
Arguments state : clear implicits.

(** ** Well-formed states and the queue a state represents *)

Section model.
Context {A : Type}.
Implicit Types (q : state A) (a : list (ptr A)) (p : ptr A) (l : list A).

(** The indices are inside the array, whose length is [size]. *)
Definition wf (size : Z) q : Prop :=
  0 < size ∧ Z.of_nat (length (fifo q)) = size ∧
  0 ≤ head q < size ∧ 0 ≤ tail q < size.

(** [represents size q l]: the occupied slots of [q] are the circular run
    that starts at [head] and holds the elements of [l], oldest first;
    every other slot is [NULL], and [tail] follows the run. [l] may fill
    the whole array. *)
Definition represents (size : Z) q l : Prop :=
  wf size q ∧
  Z.of_nat (length l) ≤ size ∧
  tail q = (head q + Z.of_nat (length l)) mod size ∧
  ∀ i : nat, Z.of_nat i < size →
    rd (fifo q) ((head q + Z.of_nat i) mod size) = l !! i.

(** The contribution of a slot to the occupancy count. *)
Definition occ p : Z := if truthy p then 1 else 0.

(** The calls of the interface, and the states they lead to. [ok] is set
    when no [enqueue] on the way has returned 1. *)
Inductive reachable (size : Z) : bool → state A → Prop :=
  | reach_empty : reachable size true (empty size)
  | reach_enqueue ok q e :
      reachable size ok q →
      reachable size (ok && bool_decide ((enqueue size q (Some e)).2 = 0))
                (enqueue size q (Some e)).1
  | reach_dequeue ok q :
      reachable size ok q → reachable size ok (dequeue size q).1
  | reach_enforce ok q limit q' :
      reachable size ok q → check_and_truncate size q limit = Some q' →
      reachable size ok q'.

(** [x] was enqueued before [y], in the order [arrivals] of the enqueued
    elements. *)
Definition arrived_before (arrivals : list A) (x y : A) : Prop :=
  ∃ i j : nat, arrivals !! i = Some x ∧ arrivals !! j = Some y ∧ (i < j)%nat.

(** Between the arrays [before] and [after] only oldest elements went:
    whatever was removed had arrived before whatever stays. *)
Definition evicts_oldest (arrivals : list A) (before after : list (ptr A))
    : Prop :=
  ∀ x y, Some x ∈ before → Some x ∉ after → Some y ∈ after →
         arrived_before arrivals x y.

(** [truncate_loop] as the iteration of [evict] it unrolls to. *)
Fixpoint evict_n (n : nat) (size : Z) q : state A :=
  match n with
  | O => q
  | S n' => evict_n n' size (evict size q)
  end.

End model.

(** ** The runs of the example programs *)

(** [main] of [fifo_example.c]: an array of size 3 and the calls made on
    it, each on the state the previous one left. *)
Module Example3.
Definition array_size : Z := 3.
Definition call1 := dequeue array_size (@empty string array_size).
Definition call2 := enqueue array_size call1.1 (Some "ab"%string).
Definition call3 := enqueue array_size call2.1 (Some "cd"%string).
Definition call4 := dequeue array_size call3.1.
Definition call5 := enqueue array_size call4.1 (Some "ef"%string).
Definition call6 := dequeue array_size call5.1.
Definition call7 := dequeue array_size call6.1.
Definition call8 := dequeue array_size call7.1.
Definition call9 := enqueue array_size call8.1 (Some "gh"%string).
Definition call10 := enqueue array_size call9.1 (Some "ij"%string).
Definition call11 := enqueue array_size call10.1 (Some "kl"%string).
End Example3.

(** Example 1 of [main] of [mm1_example.c]: the array of size 20, and "ab"
    enqueued in each iteration until a call returns 1. *)
Definition twenty_arrivals : list string := replicate 20 "ab"%string.

(** An array of size 2 after two [enqueue] calls, the second of which
    returned 1. *)
Definition overflowed : state string :=
  (enqueue_all 2 (empty 2) ["ab"; "cd"]%string).1.

(** An array of size 3 after five [enqueue] calls, the last three of which
    returned 1, and one [dequeue]. *)
Definition five_arrivals : list string :=
  ["ab"; "cd"; "ef"; "gh"; "ij"]%string.
Definition stale_head : state string :=
  (dequeue 3 (enqueue_all 3 (empty 3) five_arrivals).1).1.

Definition three_arrivals : list string := ["ab"; "cd"; "ef"]%string.

(** Arrays of size 4 and 3 holding three elements and one element. *)
Definition three_of_four : state string :=
  (enqueue_all 4 (empty 4) three_arrivals).1.
Definition one_of_three : state string :=
  (enqueue 3 (empty 3) (Some "ab"%string)).1.

(** ** The display of [mm1_example.c] *)

(** [show_queue(fifo, array_size)]: the loop fills [visualization] from
    index 0 upwards, '*' for an occupied slot and ' ' for an empty one, and
    counts the occupied slots; the result is the pair of arguments handed to
    [printf(" %s %i\n", ...)]. [show_scan k i a len vis] runs the [k]
    remaining iterations from index [i], [vis] being the characters
    written so far. *)
Fixpoint show_scan {A} (k : nat) (i : Z) (a : list (ptr A)) (len : Z)
    (vis : list ascii) : list ascii * Z :=
  match k with
  | O => (vis, len)
  | S k' =>
      if truthy (rd a i)
      then show_scan k' (i + 1) a (len + 1) (vis ++ ["*"%char])
      else show_scan k' (i + 1) a len (vis ++ [" "%char])
  end.

Definition show_queue {A} (a : list (ptr A)) (array_size : Z)
    : list ascii * Z :=
  show_scan (Z.to_nat array_size) 0 a 0 [].

(** The character [show_queue] writes for a slot. *)
Definition mark {A} (p : ptr A) : ascii :=
  if truthy p then "*"%char else " "%char.

(** ** Arbitrary call sequences, and the queue they are meant to implement *)

Section calls.
Context {A : Type}.

Inductive call : Type :=
  | Enqueue (e : A)
  | Dequeue
  | Truncate (limit : Z).

(** What a call hands back: the status of [enqueue], the pointer of
    [dequeue], nothing for [check_and_truncate]. *)
Inductive reply : Type :=
  | Status (s : Z)
  | Departure (p : ptr A)
  | Nothing.

Definition perform (size : Z) (q : state A) (c : call)
    : option (state A * reply) :=
  match c with
  | Enqueue e =>
      Some ((enqueue size q (Some e)).1, Status (enqueue size q (Some e)).2)
  | Dequeue => Some ((dequeue size q).1, Departure (dequeue size q).2)
  | Truncate limit =>
      match check_and_truncate size q limit with
      | Some q' => Some (q', Nothing)
      | None => None
      end
  end.

Fixpoint perform_all (size : Z) (q : state A) (cs : list call)
    : option (state A * list reply) :=
  match cs with
  | [] => Some (q, [])
  | c :: cs' =>
      match perform size q c with
      | Some (q1, r) =>
          match perform_all size q1 cs' with
          | Some (q2, rs) => Some (q2, r :: rs)
          | None => None
          end
      | None => None
      end
  end.

(** The first-in first-out queue as a list, oldest element first: the
    reference the array is compared with. An arrival is appended and is
    reported as an overflow when it makes the [size]-th element; a departure
    takes the first element; a truncation to [limit] drops the oldest
    elements beyond [max 0 limit]. *)
Definition fifo_step (size : Z) (l : list A) (c : call) : list A * reply :=
  match c with
  | Enqueue e =>
      (l ++ [e],
       Status (if decide (Z.of_nat (length l) + 1 < size) then 0 else 1))
  | Dequeue =>
      match l with
      | [] => ([], Departure NULL)
      | x :: l' => (l', Departure (Some x))
      end
  | Truncate limit =>
      (drop (Z.to_nat (Z.of_nat (length l) - Z.max 0 limit)) l, Nothing)
  end.

Fixpoint fifo_run (size : Z) (l : list A) (cs : list call)
    : list A * list reply :=
  match cs with
  | [] => (l, [])
  | c :: cs' =>
      let '(l1, r) := fifo_step size l c in
      let '(l2, rs) := fifo_run size l1 cs' in
      (l2, r :: rs)
  end.

(** No arrival of the sequence finds [size - 1] elements queued. *)
Fixpoint fifo_fits (size : Z) (l : list A) (cs : list call) : Prop :=
  match cs with
  | [] => True
  | c :: cs' =>
      match c with
      | Enqueue _ => Z.of_nat (length l) + 1 < size
      | _ => True
      end ∧ fifo_fits size (fifo_step size l c).1 cs'
  end.

End calls.

Arguments call : clear implicits.
Arguments reply : clear implicits.

(** ** The simulation loops of [main] in [mm1_example.c] *)

Module Main.

(** When an arrival or a departure takes place in an iteration:
    unconditionally (Examples 1 and 2), not at all (no [dequeue] in
    Example 1), [if (iterations % m == 0)] (Example 2), or
    [if (rand() % 100 < percent)] (Examples 3 to 10). *)
Inductive trigger : Type :=
  | Always
  | Never
  | Every (m : Z)
  | Chance (percent : Z).

(** The constants in which the ten cases of the [switch] differ. [control]
    is set for the cases that call [check_and_truncate(..., 2)] under
    [if (iterations % 10 == 0)]. *)
Record example : Type := Example {
  arrival : trigger;
  departure : trigger;
  control : bool;
  max_iterations : Z
}.

Definition example_case (n : Z) : option example :=
  if decide (n = 1) then Some (Example Always Never false 100)
  else if decide (n = 2) then Some (Example Always (Every 2) false 100)
  else if decide (n = 3) then Some (Example (Chance 50) (Chance 50) false 1000)
  else if decide (n = 4) then Some (Example (Chance 20) (Chance 40) false 1000)
  else if decide (n = 5) then Some (Example (Chance 40) (Chance 20) false 1000)
  else if decide (n = 6) then Some (Example (Chance 49) (Chance 52) false 1000)
  else if decide (n = 7) then Some (Example (Chance 40) (Chance 20) true 1000)
  else if decide (n = 8) then Some (Example (Chance 49) (Chance 52) true 1000)
  else if decide (n = 9) then Some (Example (Chance 25) (Chance 30) false 10000)
  else if decide (n = 10) then Some (Example (Chance 25) (Chance 30) true 10000)
  else None.

(** The variables of [main] that the loops change, with the number of
    [rand()] calls made so far and the lines [show_queue] has printed. *)
Record vars : Type := Vars {
  queue : state string;
  status : Z;
  iterations : Z;
  draws : nat;
  shown : list (list ascii * Z)
}.

Section loops.
(** The values [rand()] returns after [srand(1234)], in order. The
    generator belongs to the C library; the loops are modelled for any
    sequence. *)
Variable rand : nat → Z.

(** Whether the trigger fires in iteration [it], and the number of
    [rand()] calls after deciding it. *)
Definition fires (t : trigger) (it : Z) (n : nat) : bool * nat :=
  match t with
  | Always => (true, n)
  | Never => (false, n)
  | Every m => (bool_decide (Z.rem it m = 0), n)
  | Chance percent => (bool_decide (Z.rem (rand n) 100 < percent), S n)
  end.

(** One iteration of the [while] loop of a case. *)
Definition iteration (ex : example) (array_size : Z) (v : vars)
    : option vars :=
  let it := iterations v + 1 in
  let '(arrives, n1) := fires (arrival ex) it (draws v) in
  let '(q1, status1) :=
    if arrives then enqueue array_size (queue v) (Some "ab"%string)
    else (queue v, status v) in
  let '(departs, n2) := fires (departure ex) it n1 in
  let q2 := if departs then (dequeue array_size q1).1 else q1 in
  match
    (if control ex && bool_decide (Z.rem it 10 = 0)
     then check_and_truncate array_size q2 2 else Some q2)
  with
  | Some q3 =>
      Some (Vars q3 status1 it n2
                 (shown v ++ [show_queue (fifo q3) array_size]))
  | None => None
  end.

(** The parts of an iteration: whether the arrival and the departure take
    place (with the count of [rand()] calls after each decision), whether
    the truncation is due, and the queue after the first and the second
    step. *)
Definition arrives (ex : example) (v : vars) : bool * nat :=
  fires (arrival ex) (iterations v + 1) (draws v).

Definition departs (ex : example) (v : vars) : bool * nat :=
  fires (departure ex) (iterations v + 1) (arrives ex v).2.

Definition truncates (ex : example) (v : vars) : bool :=
  control ex && bool_decide (Z.rem (iterations v + 1) 10 = 0).

Definition after_arrival (ex : example) (array_size : Z) (v : vars)
    : state string * Z :=
  if (arrives ex v).1 then enqueue array_size (queue v) (Some "ab"%string)
  else (queue v, status v).

Definition after_departure (ex : example) (array_size : Z) (v : vars)
    : state string :=
  if (departs ex v).1
  then (dequeue array_size (after_arrival ex array_size v).1).1
  else (after_arrival ex array_size v).1.

(** The number of queued elements after an iteration that starts with [n]
    of them and does not overflow. *)
Definition next_length (ex : example) (v : vars) (n : Z) : Z :=
  let n1 := if (arrives ex v).1 then n + 1 else n in
  let n2 := if (departs ex v).1 then Z.max 0 (n1 - 1) else n1 in
  if truncates ex v then Z.min n2 2 else n2.

(** [while ((status == 0) && (iterations < max)) { ... }], with a bound on
    the number of iterations: [None] means the bound was reached with the
    condition still true, or that a truncation ran out of its own bound. *)
Fixpoint loop (fuel : nat) (ex : example) (array_size : Z) (v : vars)
    : option vars :=
  if bool_decide (status v = 0) && bool_decide (iterations v < max_iterations ex)
  then
    match fuel with
    | O => None
    | S fuel' =>
        match iteration ex array_size v with
        | Some v' => loop fuel' ex array_size v'
        | None => None
        end
    end
  else Some v.

(** The state [main] starts every case from. *)
Definition start (array_size : Z) : vars :=
  Vars (empty array_size) 0 0 0 [].

(** A case of the [switch] from its start; [max_iterations] iterations of
    fuel are as many as the loop condition allows. *)
Definition run (ex : example) (array_size : Z) : option vars :=
  loop (Z.to_nat (max_iterations ex)) ex array_size (start array_size).

(** [if (status == 1) puts("OVERFLOW!");] *)
Definition overflow_printed (v : vars) : bool := bool_decide (status v = 1).

End loops.

End Main.

(** ** Sample inputs for the loops and the call sequences *)

(** A run of calls on an array of size 3 during which [tail] and [head]
    both wrap around. *)
Definition wrapping_calls : list (call string) :=
  [Enqueue "ab"; Enqueue "cd"; Dequeue; Enqueue "ef"; Truncate 1;
   Dequeue; Dequeue; Enqueue "gh"; Dequeue]%string.

(** A run of calls on an array of size 2 that keeps enqueueing after the
    overflow. *)
Definition overflowing_calls : list (call string) :=
  [Enqueue "ab"; Enqueue "cd"; Enqueue "ef"; Truncate 1; Dequeue;
   Enqueue "gh"; Truncate (-1)]%string.

(** A sequence of values for [rand()], and the cases 1, 2, 3 and 7 of the
    [switch]. *)
Definition sample_rand (n : nat) : Z := (Z.of_nat n * 7919 + 13) mod 32768.
Definition case1 : Main.example :=
  Main.Example Main.Always Main.Never false 100.
Definition case2 : Main.example :=
  Main.Example Main.Always (Main.Every 2) false 100.
Definition case3 : Main.example :=
  Main.Example (Main.Chance 50) (Main.Chance 50) false 1000.
Definition case7 : Main.example :=
  Main.Example (Main.Chance 40) (Main.Chance 20) true 1000.

(** ** Arithmetic and array lemmas *)

Section facts.
Context {A : Type}.
Implicit Types (q : state A) (a : list (ptr A)) (p : ptr A) (l : list A).

Lemma mod_wrap (x n : Z) :
  0 ≤ x < 2 * n → x mod n = if decide (x < n) then x else x - n.
Proof.
  intros Hx. case_decide.
  - apply Z.mod_small. lia.
  - replace x with ((x - n) + 1 * n) at 1 by lia.
    rewrite Z_mod_plus_full. apply Z.mod_small. lia.
Qed.

Lemma rem_wrap (x n : Z) :
  0 ≤ x < 2 * n → Z.rem x n = if decide (x < n) then x else x - n.
Proof.
  intros Hx. rewrite Z.rem_mod_nonneg by lia. by apply mod_wrap.
Qed.

Lemma length_wr a i p : length (wr a i p) = length a.
Proof. unfold wr. case_decide; [apply length_insert | done]. Qed.

Lemma rd_wr_eq a i p :
  0 ≤ i < Z.of_nat (length a) → rd (wr a i p) i = p.
Proof.
  intros Hi. unfold rd, wr. rewrite !decide_True by lia.
  rewrite list_lookup_insert_eq by lia. done.
Qed.

Lemma rd_wr_ne a i j p : i ≠ j → rd (wr a i p) j = rd a j.
Proof.
  intros Hne. unfold rd, wr. repeat case_decide; try done.
  rewrite list_lookup_insert_ne by lia. done.
Qed.

Lemma rd_replicate (n : nat) i : rd (replicate n (@NULL A)) i = NULL.
Proof.
  unfold rd. case_decide; [|done].
  destruct (replicate n NULL !! Z.to_nat i) as [p|] eqn:E; [|done].
  apply lookup_replicate in E as [-> _]. done.
Qed.

Lemma scan_acc k : ∀ i a len, scan k i a len = len + scan k i a 0.
Proof.
  induction k as [|k IH]; intros i a len; simpl; [lia|].
  rewrite (IH _ _ (if truthy (rd a i) then len + 1 else len)).
  rewrite (IH _ _ (if truthy (rd a i) then 0 + 1 else 0)).
  destruct (truthy (rd a i)); lia.
Qed.

Lemma scan_step k i a :
  scan (S k) i a 0 = occ (rd a i) + scan k (i + 1) a 0.
Proof.
  simpl. rewrite scan_acc. unfold occ. destruct (truthy (rd a i)); lia.
Qed.

Lemma scan_bounds k : ∀ i a, 0 ≤ scan k i a 0 ≤ Z.of_nat k.
Proof.
  induction k as [|k IH]; intros i a; [simpl; lia|].
  rewrite scan_step. specialize (IH (i + 1) a).
  unfold occ. destruct (truthy (rd a i)); lia.
Qed.

Lemma scan_wr k : ∀ i a j p,
  0 ≤ j < Z.of_nat (length a) →
  scan k i (wr a j p) 0 =
  scan k i a 0 +
  (if decide (i ≤ j < i + Z.of_nat k) then occ p - occ (rd a j) else 0).
Proof.
  induction k as [|k IH]; intros i a j p Hj.
  - simpl. rewrite decide_False by lia. lia.
  - rewrite !scan_step, IH by done.
    destruct (decide (i = j)) as [->|Hne].
    + rewrite rd_wr_eq by done. repeat case_decide; lia.
    + rewrite rd_wr_ne by done. repeat case_decide; lia.
Qed.

Lemma queue_length_wr size a j p :
  Z.of_nat (length a) = size → 0 ≤ j < size →
  queue_length size (wr a j p) = queue_length size a + occ p - occ (rd a j).
Proof.
  intros Hlen Hj. unfold queue_length. rewrite scan_wr by lia.
  rewrite decide_True by lia. lia.
Qed.

Lemma queue_length_bounds size a :
  0 ≤ size → 0 ≤ queue_length size a ≤ size.
Proof.
  intros Hs. unfold queue_length.
  pose proof (scan_bounds (Z.to_nat size) 0 a). lia.
Qed.

Lemma scan_null k : ∀ i a,
  (∀ j, i ≤ j < i + Z.of_nat k → rd a j = NULL) → scan k i a 0 = 0.
Proof.
  induction k as [|k IH]; intros i a Hnull; [done|].
  rewrite scan_step, IH, Hnull; [done|lia|].
  intros j Hj. apply Hnull. lia.
Qed.

(** ** The operations on represented queues *)

Lemma run_index_range size h i :
  0 < size → 0 ≤ h < size → 0 ≤ i ≤ size → 0 ≤ (h + i) mod size < size.
Proof. intros. apply Z.mod_pos_bound. lia. Qed.

Lemma run_index_inj size h i j :
  0 ≤ h < size → 0 ≤ i < size → 0 ≤ j < size →
  (h + i) mod size = (h + j) mod size → i = j.
Proof.
  intros Hh Hi Hj. rewrite !mod_wrap by lia. repeat case_decide; lia.
Qed.

Lemma wf_empty size : 0 < size → wf size (@empty A size).
Proof.
  intros Hs. unfold wf, empty. simpl. rewrite length_replicate. lia.
Qed.

Lemma represents_empty size : 0 < size → represents size (@empty A size) [].
Proof.
  intros Hs. split; [by apply wf_empty|]. simpl.
  split; [lia|]. split; [by rewrite Z.mod_0_l by lia|].
  intros i _. apply rd_replicate.
Qed.

Lemma represents_wf size q l : represents size q l → wf size q.
Proof. by intros [? _]. Qed.

Lemma represents_head size q l :
  represents size q l → rd (fifo q) (head q) = l !! 0%nat.
Proof.
  intros ((Hs & Hn & Hh & Ht) & Hlen & Htail & Hslots).
  rewrite <- (Hslots 0%nat) by lia.
  by rewrite Z.add_0_r, Z.mod_small by lia.
Qed.

Lemma enqueue_fst size q p :
  (enqueue size q p).1 =
  State (wr (fifo q) (tail q) p) (head q) (Z.rem (tail q + 1) size).
Proof. unfold enqueue. by destruct (negb _). Qed.

Lemma enqueue_snd size q p :
  (enqueue size q p).2 =
  occ (rd (wr (fifo q) (tail q) p) (Z.rem (tail q + 1) size)).
Proof. unfold enqueue, occ. by destruct (truthy _). Qed.

Lemma wf_enqueue size q p : wf size q → wf size (enqueue size q p).1.
Proof.
  intros (Hs & Hn & Hh & Ht). rewrite enqueue_fst. unfold wf. simpl.
  rewrite length_wr, rem_wrap by lia. case_decide; lia.
Qed.

Lemma enqueue_represents size q l e :
  represents size q l → Z.of_nat (length l) < size →
  represents size (enqueue size q (Some e)).1 (l ++ [e]) ∧
  (enqueue size q (Some e)).2 =
    if decide (Z.of_nat (length l) + 1 < size) then 0 else 1.
Proof.
  intros (Hwf & Hlen & Htail & Hslots) Hroom.
  pose proof Hwf as (Hs & Hn & Hh & Ht).
  assert (Hnew : ∀ i : nat, Z.of_nat i < size →
    rd (wr (fifo q) (tail q) (Some e)) ((head q + Z.of_nat i) mod size)
    = (l ++ [e]) !! i).
  { intros i Hi. destruct (decide (i = length l)) as [->|Hne].
    - rewrite <- Htail, rd_wr_eq by lia. by rewrite list_lookup_middle.
    - rewrite rd_wr_ne, Hslots by
        (try done; rewrite Htail; intros E; apply run_index_inj in E; lia).
      destruct (decide (i < length l)%nat).
      + by rewrite lookup_app_l.
      + rewrite !lookup_ge_None_2; [done| |lia].
        rewrite length_app. simpl. lia. }
  assert (Htail' : Z.rem (tail q + 1) size =
                   (head q + Z.of_nat (length (l ++ [e]))) mod size).
  { rewrite length_app. simpl. rewrite Htail.
    rewrite (mod_wrap (head q + Z.of_nat (length l))) by lia.
    rewrite rem_wrap by (case_decide; lia).
    rewrite mod_wrap by lia. repeat case_decide; lia. }
  split.
  - split; [by apply wf_enqueue|]. rewrite enqueue_fst. simpl.
    split; [rewrite length_app; simpl; lia|]. done.
  - rewrite enqueue_snd, Htail'. rewrite length_app. simpl.
    case_decide.
    + replace (Z.of_nat (length l + 1)) with (Z.of_nat (S (length l))) by lia.
      rewrite Hnew by lia. rewrite lookup_ge_None_2; [done|].
      rewrite length_app. simpl. lia.
    + replace (head q + Z.of_nat (length l + 1)) with (head q + 1 * size) by lia.
      rewrite Z_mod_plus_full.
      replace (head q mod size) with ((head q + Z.of_nat 0) mod size)
        by (f_equal; lia).
      rewrite Hnew by lia. by destruct l.
Qed.

(** The [enqueue] that overflows: it fills the last free slot. *)
Lemma enqueue_overflow size q l e :
  represents size q l → Z.of_nat (length l) + 1 = size →
  (enqueue size q (Some e)).2 = 1 ∧
  represents size (enqueue size q (Some e)).1 (l ++ [e]) ∧
  Z.of_nat (length (l ++ [e])) = size.
Proof.
  intros Hrep Hlast.
  destruct (enqueue_represents size q l e Hrep) as [Hrep' Hst]; [lia|].
  rewrite decide_False in Hst by lia. split_and!; [done..|].
  rewrite length_app. simpl. lia.
Qed.

Lemma evict_represents size q x l :
  represents size q (x :: l) → represents size (evict size q) l.
Proof.
  intros (Hwf & Hlen & Htail & Hslots).
  pose proof Hwf as (Hs & Hn & Hh & Ht). simpl in Hlen, Htail.
  unfold evict. split; [|split; [|split]]; simpl.
  - unfold wf. simpl. rewrite length_wr, rem_wrap by lia. case_decide; lia.
  - lia.
  - rewrite Htail, rem_wrap by lia.
    rewrite !mod_wrap by (repeat case_decide; lia).
    repeat case_decide; lia.
  - intros i Hi. destruct (decide (Z.of_nat i + 1 = size)) as [Hlast|Hin].
    + replace ((Z.rem (head q + 1) size + Z.of_nat i) mod size) with (head q).
      * rewrite rd_wr_eq by lia. symmetry. apply lookup_ge_None_2. lia.
      * rewrite rem_wrap by lia.
        rewrite mod_wrap by (repeat case_decide; lia).
        repeat case_decide; lia.
    + replace ((Z.rem (head q + 1) size + Z.of_nat i) mod size)
        with ((head q + Z.of_nat (S i)) mod size).
      * rewrite rd_wr_ne, (Hslots (S i)) by
          (try lia; intros E; rewrite mod_wrap in E by lia;
           repeat case_decide; lia).
        done.
      * rewrite rem_wrap by lia.
        rewrite !mod_wrap by (repeat case_decide; lia).
        repeat case_decide; lia.
Qed.

Lemma wf_evict size q : wf size q → wf size (evict size q).
Proof.
  intros (Hs & Hn & Hh & Ht). unfold wf, evict. simpl.
  rewrite length_wr, rem_wrap by lia. case_decide; lia.
Qed.

Lemma dequeue_null size q :
  rd (fifo q) (head q) = NULL → dequeue size q = (q, NULL).
Proof. intros E. unfold dequeue. by rewrite E. Qed.

Lemma dequeue_evict size q :
  truthy (rd (fifo q) (head q)) = true → head q ≠ tail q →
  dequeue size q = (evict size q, rd (fifo q) (head q)).
Proof.
  intros E Hne. unfold dequeue, evict. rewrite E.
  by rewrite decide_True by done.
Qed.

Lemma dequeue_represents size q x l :
  represents size q (x :: l) → Z.of_nat (length (x :: l)) < size →
  dequeue size q = (evict size q, Some x).
Proof.
  intros Hrep Hroom. pose proof (represents_head _ _ _ Hrep) as Hx.
  destruct Hrep as ((Hs & Hn & Hh & Ht) & Hlen & Htail & Hslots).
  simpl in *. rewrite dequeue_evict, Hx; [done|by rewrite Hx|].
  rewrite Htail, mod_wrap by lia. case_decide; lia.
Qed.

Lemma represents_slot size q l j :
  represents size q l → 0 ≤ j < size →
  ∃ i : nat, Z.of_nat i < size ∧ rd (fifo q) j = l !! i.
Proof.
  intros ((Hs & Hn & Hh & Ht) & Hlen & Htail & Hslots) Hj.
  destruct (decide (head q ≤ j)).
  - exists (Z.to_nat (j - head q)). split; [lia|].
    rewrite <- Hslots, Z2Nat.id by lia.
    replace (head q + (j - head q)) with j by lia.
    by rewrite Z.mod_small by lia.
  - exists (Z.to_nat (j - head q + size)). split; [lia|].
    rewrite <- Hslots, Z2Nat.id by lia.
    replace (head q + (j - head q + size)) with (j + 1 * size) by lia.
    by rewrite Z_mod_plus_full, Z.mod_small by lia.
Qed.

Lemma represents_nil_null size q j :
  represents size q [] → 0 ≤ j < size → rd (fifo q) j = NULL.
Proof.
  intros Hrep Hj. by destruct (represents_slot _ _ _ _ Hrep Hj) as (i & _ & ->).
Qed.

Lemma represents_elem size q l y :
  represents size q l → Some y ∈ fifo q ↔ y ∈ l.
Proof.
  intros Hrep. pose proof Hrep as ((Hs & Hn & Hh & Ht) & Hlen & _ & Hslots).
  split.
  - intros [j Hj]%list_elem_of_lookup.
    pose proof (lookup_lt_Some _ _ _ Hj) as Hlt.
    destruct (represents_slot size q l (Z.of_nat j) Hrep) as (i & _ & Hi);
      [unfold ptr in *; lia|].
    unfold rd, ptr in *. rewrite decide_True, Nat2Z.id, Hj in Hi by lia.
    simpl in Hi. by eapply list_elem_of_lookup_2.
  - intros [i Hi]%list_elem_of_lookup.
    pose proof (lookup_lt_Some _ _ _ Hi) as Hlt.
    specialize (Hslots i ltac:(lia)). rewrite Hi in Hslots.
    unfold rd in Hslots. case_decide; [|done].
    destruct (fifo q !! _) as [p'|] eqn:E; [|done].
    simpl in Hslots. subst p'. by eapply list_elem_of_lookup_2.
Qed.

(** A queue that fills the whole array: [head = tail], no slot is empty. *)
Lemma represents_full size q l :
  represents size q l → Z.of_nat (length l) = size →
  head q = tail q ∧ ∀ j, 0 ≤ j < size → rd (fifo q) j ≠ NULL.
Proof.
  intros Hrep Hfull. split.
  - destruct Hrep as ((Hs & Hn & Hh & Ht) & Hlen & Htail & Hslots).
    rewrite Htail, Hfull.
    replace (head q + size) with (head q + 1 * size) by lia.
    by rewrite Z_mod_plus_full, Z.mod_small by lia.
  - intros j Hj. destruct (represents_slot _ _ _ _ Hrep Hj) as (i & Hi & ->).
    destruct (lookup_lt_is_Some_2 l i) as [x ->]; [lia|done].
Qed.

(** The state the overflowing [enqueue] leaves: [head = tail], every slot
    occupied, the queue in arrival order from [head]. *)
Lemma overflow_leaves_full size q l e :
  represents size q l → Z.of_nat (length l) + 1 = size →
  head (enqueue size q (Some e)).1 = tail (enqueue size q (Some e)).1 ∧
  (∀ j, 0 ≤ j < size → rd (fifo (enqueue size q (Some e)).1) j ≠ NULL) ∧
  rd (fifo (enqueue size q (Some e)).1) (tail (enqueue size q (Some e)).1)
    = (l ++ [e]) !! 0%nat.
Proof.
  intros Hrep Hlast.
  destruct (enqueue_overflow size q l e Hrep Hlast) as (_ & Hrep' & Hfull).
  destruct (represents_full _ _ _ Hrep' Hfull) as [Heq Hocc].
  split_and!; [done..|]. rewrite <- Heq. by apply (represents_head size).
Qed.

Lemma queue_length_evict size q :
  wf size q → truthy (rd (fifo q) (head q)) = true →
  queue_length size (fifo (evict size q)) = queue_length size (fifo q) - 1.
Proof.
  intros (Hs & Hn & Hh & Ht) E. unfold evict. simpl.
  rewrite queue_length_wr by done. unfold occ. rewrite E. simpl. lia.
Qed.

Lemma queue_length_represents size l : ∀ q,
  represents size q l → queue_length size (fifo q) = Z.of_nat (length l).
Proof.
  induction l as [|x l IH]; intros q Hrep.
  - unfold queue_length. apply scan_null. intros j Hj.
    apply (represents_nil_null size); [done|].
    destruct Hrep as ((Hs & _) & _). lia.
  - pose proof (IH _ (evict_represents _ _ _ _ Hrep)) as Hl.
    rewrite queue_length_evict in Hl.
    + simpl length. lia.
    + by eapply represents_wf.
    + by rewrite (represents_head _ _ _ Hrep).
Qed.

(** ** The truncation loop *)

Lemma wf_evict_n size k : ∀ q, wf size q → wf size (evict_n k size q).
Proof. induction k; intros q Hq; simpl; auto using wf_evict. Qed.

Lemma evict_n_S k size : ∀ q,
  evict_n (S k) size q = evict size (evict_n k size q).
Proof. induction k as [|k IH]; intros q; [done|]. simpl in *. by rewrite IH. Qed.

Lemma tail_evict_n size k : ∀ q, tail (evict_n k size q) = tail q.
Proof. induction k as [|k IH]; intros q; [done|]. simpl. by rewrite IH. Qed.

Lemma length_evict_n size k : ∀ q,
  length (fifo (evict_n k size q)) = length (fifo q).
Proof.
  induction k as [|k IH]; intros q; [done|]. simpl.
  rewrite IH. apply length_wr.
Qed.

Lemma rd_evict_n size k : ∀ q i,
  rd (fifo (evict_n k size q)) i = rd (fifo q) i ∨
  rd (fifo (evict_n k size q)) i = NULL.
Proof.
  induction k as [|k IH]; intros q i; [by left|]. simpl.
  destruct (IH (evict size q) i) as [E|E]; [|by right].
  rewrite E. unfold evict. simpl.
  destruct (decide (head q = i)) as [<-|Hne].
  - unfold wr, rd. repeat case_decide; auto.
    destruct (decide (Z.to_nat (head q) < length (fifo q))%nat).
    + right. by rewrite list_lookup_insert_eq.
    + left. by rewrite list_insert_ge by lia.
  - left. by apply rd_wr_ne.
Qed.

Lemma evict_n_represents size k : ∀ q l,
  represents size q l → (k ≤ length l)%nat →
  represents size (evict_n k size q) (drop k l).
Proof.
  induction k as [|k IH]; intros q l Hrep Hk; [by rewrite drop_0|].
  destruct l as [|x l]; [simpl in Hk; lia|]. simpl in *.
  apply IH; [by eapply evict_represents|lia].
Qed.

Lemma guard_true q len limit :
  guard q len limit = true ↔
  truthy (rd (fifo q) (head q)) = true ∧ len > limit.
Proof.
  unfold guard. rewrite andb_true_iff, bool_decide_eq_true. done.
Qed.

Lemma guard_false q len limit :
  guard q len limit = false ↔ rd (fifo q) (head q) = NULL ∨ len ≤ limit.
Proof.
  unfold guard. rewrite andb_false_iff, bool_decide_eq_false.
  destruct (rd (fifo q) (head q)); simpl; split; intros [?|?];
    try done; (by left) || (right; lia) || auto.
Qed.

(** The loop runs [k] evictions, for a [k] no larger than the occupancy:
    the guard holds before each of them and fails after the last, and the
    local counter is the occupancy of the array all along. *)
Lemma truncate_loop_run size limit fuel : ∀ q,
  wf size q → queue_length size (fifo q) ≤ Z.of_nat fuel →
  ∃ k : nat,
    truncate_loop fuel size q (queue_length size (fifo q)) limit
      = Some (evict_n k size q) ∧
    Z.of_nat k ≤ queue_length size (fifo q) ∧
    queue_length size (fifo (evict_n k size q))
      = queue_length size (fifo q) - Z.of_nat k ∧
    guard (evict_n k size q)
          (queue_length size (fifo (evict_n k size q))) limit = false ∧
    ∀ j : nat, (j < k)%nat →
      guard (evict_n j size q)
            (queue_length size (fifo (evict_n j size q))) limit = true.
Proof.
  induction fuel as [|fuel IH]; intros q Hwf Hfuel;
    pose proof (queue_length_bounds size (fifo q)) as Hq;
    destruct (guard q (queue_length size (fifo q)) limit) eqn:G.
  - apply guard_true in G as [E _].
    pose proof (queue_length_evict _ _ Hwf E) as Hl.
    pose proof (queue_length_bounds size (fifo (evict size q))) as Hb.
    destruct Hwf as (Hs & _). lia.
  - exists 0%nat. simpl. rewrite G. destruct Hwf as (Hs & _).
    repeat split; try done; lia.
  - pose proof G as G'. apply guard_true in G' as [E _].
    pose proof (queue_length_evict _ _ Hwf E) as Hl.
    destruct (IH (evict size q)) as (k & Hrun & Hk & Hlen & Hend & Hbefore).
    { by apply wf_evict. } { lia. }
    exists (S k). simpl. rewrite G, <- Hl. repeat split; try done; try lia.
    intros [|j] Hj; simpl; [done|]. apply Hbefore. lia.
  - exists 0%nat. simpl. rewrite G. destruct Hwf as (Hs & _).
    repeat split; try done; lia.
Qed.

Lemma truncate_loop_fuel size limit q' fuel : ∀ fuel' q len,
  (fuel ≤ fuel')%nat →
  truncate_loop fuel size q len limit = Some q' →
  truncate_loop fuel' size q len limit = Some q'.
Proof.
  induction fuel as [|fuel IH]; intros fuel' q len Hle Hrun.
  - simpl in Hrun. destruct (guard q len limit) eqn:G; [done|].
    destruct fuel'; simpl; by rewrite G.
  - destruct fuel' as [|fuel']; [lia|]. simpl in *.
    destruct (guard q len limit); [|done]. apply IH; [lia|done].
Qed.

Lemma check_and_truncate_run size q limit :
  wf size q →
  ∃ k : nat,
    check_and_truncate size q limit = Some (evict_n k size q) ∧
    Z.of_nat k ≤ queue_length size (fifo q) ∧
    queue_length size (fifo (evict_n k size q))
      = queue_length size (fifo q) - Z.of_nat k ∧
    guard (evict_n k size q)
          (queue_length size (fifo (evict_n k size q))) limit = false ∧
    ∀ j : nat, (j < k)%nat →
      guard (evict_n j size q)
            (queue_length size (fifo (evict_n j size q))) limit = true.
Proof.
  intros Hwf. apply truncate_loop_run; [done|].
  pose proof Hwf as (Hs & Hn & _).
  pose proof (queue_length_bounds size (fifo q)). lia.
Qed.

(** ** Sequences of calls on represented queues *)

Lemma enqueue_all_cons size q e es :
  enqueue_all size q (e :: es) =
  ((enqueue_all size (enqueue size q (Some e)).1 es).1,
   (enqueue size q (Some e)).2 ::
   (enqueue_all size (enqueue size q (Some e)).1 es).2).
Proof.
  simpl. destruct (enqueue size q (Some e)) as [q1 st]. simpl.
  by destruct (enqueue_all size q1 es).
Qed.

Lemma enqueue_all_app size es1 : ∀ q es2,
  enqueue_all size q (es1 ++ es2) =
  ((enqueue_all size (enqueue_all size q es1).1 es2).1,
   (enqueue_all size q es1).2 ++
   (enqueue_all size (enqueue_all size q es1).1 es2).2).
Proof.
  induction es1 as [|e es1 IH]; intros q es2.
  - simpl. by destruct (enqueue_all size q es2).
  - rewrite <- app_comm_cons, !enqueue_all_cons, IH. done.
Qed.

Lemma enqueue_all_room size es : ∀ q l,
  represents size q l →
  Z.of_nat (length l) + Z.of_nat (length es) < size →
  represents size (enqueue_all size q es).1 (l ++ es) ∧
  (enqueue_all size q es).2 = replicate (length es) 0.
Proof.
  induction es as [|e es IH]; intros q l Hrep Hroom.
  - simpl. by rewrite app_nil_r.
  - simpl length in Hroom.
    destruct (enqueue_represents size q l e) as [Hrep1 Hst]; [done|lia|].
    rewrite decide_True in Hst by lia.
    destruct (IH _ _ Hrep1) as [Hrep2 Hsts].
    { rewrite length_app. simpl. lia. }
    rewrite enqueue_all_cons. simpl. rewrite Hst, Hsts.
    by rewrite <- app_assoc in Hrep2.
Qed.

Lemma enqueue_all_ok size es : ∀ q l,
  represents size q l → Z.of_nat (length l) < size →
  Forall (λ status, status = 0) (enqueue_all size q es).2 →
  represents size (enqueue_all size q es).1 (l ++ es) ∧
  Z.of_nat (length (l ++ es)) < size.
Proof.
  induction es as [|e es IH]; intros q l Hrep Hroom Hok.
  - simpl. by rewrite app_nil_r.
  - rewrite enqueue_all_cons in *. simpl in *.
    apply Forall_cons in Hok as [Hst Hok].
    destruct (enqueue_represents size q l e) as [Hrep1 Hst1]; [done..|].
    rewrite Hst in Hst1. case_decide; [|done].
    destruct (IH _ _ Hrep1) as [Hrep2 Hlen]; [|done|].
    { rewrite length_app. simpl. lia. }
    by rewrite <- app_assoc in Hrep2, Hlen.
Qed.

Lemma dequeue_n_represents size l : ∀ q,
  represents size q l → Z.of_nat (length l) < size →
  represents size (dequeue_n size q (length l)).1 [] ∧
  (dequeue_n size q (length l)).2 = Some <$> l.
Proof.
  induction l as [|x l IH]; intros q Hrep Hroom; [done|].
  simpl. rewrite (dequeue_represents _ _ _ _ Hrep Hroom).
  destruct (IH (evict size q)) as [Hrep' Hout].
  { by eapply evict_represents. } { simpl in Hroom. lia. }
  destruct (dequeue_n size (evict size q) (length l)) as [q2 out].
  simpl in *. by rewrite Hout.
Qed.

Lemma dequeue_n_null size n : ∀ q,
  rd (fifo q) (head q) = NULL → dequeue_n size q n = (q, replicate n NULL).
Proof.
  induction n as [|n IH]; intros q E; [done|].
  simpl. by rewrite (dequeue_null _ _ E), (IH _ E).
Qed.

Lemma reachable_represents size ok q :
  0 < size → reachable size ok q → ok = true →
  ∃ l, represents size q l ∧ Z.of_nat (length l) < size.
Proof.
  intros Hs Hreach. induction Hreach as
    [|ok q e Hreach IH|ok q Hreach IH|ok q limit q' Hreach IH Hrun];
    intros Hok.
  - exists []. split; [by apply represents_empty|simpl; lia].
  - apply andb_true_iff in Hok as [Hok Hst].
    apply bool_decide_eq_true in Hst.
    destruct (IH Hok) as (l & Hrep & Hlen).
    destruct (enqueue_represents size q l e) as [Hrep1 Hst1]; [done..|].
    rewrite Hst in Hst1. case_decide; [|done].
    exists (l ++ [e]). split; [done|]. rewrite length_app. simpl. lia.
  - destruct (IH Hok) as ([|x l] & Hrep & Hlen).
    + exists []. rewrite dequeue_null; [done|].
      by rewrite (represents_head _ _ _ Hrep).
    + exists l. rewrite (dequeue_represents _ _ _ _ Hrep Hlen). simpl.
      split; [by eapply evict_represents|simpl in Hlen; lia].
  - destruct (IH Hok) as (l & Hrep & Hlen).
    destruct (check_and_truncate_run size q limit) as (k & Hk & Hle & _).
    { by eapply represents_wf. }
    rewrite Hrun in Hk. injection Hk as ->.
    rewrite (queue_length_represents _ _ _ Hrep) in Hle.
    exists (drop k l). split; [apply evict_n_represents; [done|lia]|].
    rewrite length_drop. lia.
Qed.

End facts.

(** ** The properties of the specification *)

Section properties.
Context {A : Type}.
Implicit Types (q : state A) (a : list (ptr A)) (p : ptr A) (l es : list A).

(** C1. Capacity-minus-one bound: for a capacity [size >= 2], [size]
    consecutive [enqueue] calls on the freshly built empty queue, with no
    [dequeue] in between, return 0 (no error) for each of the first
    [size - 1] calls and 1 (overflow) for the last one. With [size = 20]
    the 19th call succeeds and the 20th reports overflow. *)
Theorem enqueue_capacity_bound size es :
  2 ≤ size → Z.of_nat (length es) = size →
  (enqueue_all size (empty size) es).2
    = replicate (Z.to_nat (size - 1)) 0 ++ [1].
Proof.
  intros Hs Hlen. destruct es as [|e es _] using rev_ind; [simpl in Hlen; lia|].
  rewrite length_app in Hlen. simpl in Hlen.
  destruct (enqueue_all_room size es (empty size) []) as [Hrep Hsts].
  { apply represents_empty. lia. } { simpl. lia. }
  simpl in Hrep.
  destruct (enqueue_represents size _ es e Hrep) as [_ Hst]; [lia|].
  rewrite decide_False in Hst by lia.
  rewrite enqueue_all_app, enqueue_all_cons. cbn [fst snd enqueue_all].
  rewrite Hsts, Hst.
  by replace (Z.to_nat (size - 1)) with (length es) by lia.
Qed.

(** C2. FIFO order: when the elements [e1 .. en] are enqueued in that
    order on the empty queue and no [enqueue] returns 1 (overflow), the
    next [n] calls of [dequeue] return [e1 .. en] in exactly that order. *)
Theorem fifo_order size es :
  0 < size →
  Forall (λ status, status = 0) (enqueue_all size (empty size) es).2 →
  (dequeue_n size (enqueue_all size (empty size) es).1 (length es)).2
    = Some <$> es.
Proof.
  intros Hs Hok.
  destruct (enqueue_all_ok size es (empty size) []) as [Hrep Hlen];
    [by apply represents_empty|simpl; lia|done|].
  simpl in Hrep, Hlen. by apply dequeue_n_represents.
Qed.

(** C3, amended. In every state reached from the empty queue of capacity
    [size >= 2] by [enqueue], [dequeue] and [check_and_truncate] calls of
    which no [enqueue] returned 1 (overflow), at most [size - 1] slots are
    occupied, and [head = tail] holds exactly when no slot is occupied. *)
Theorem occupancy_bound_without_overflow size q :
  2 ≤ size → reachable size true q →
  queue_length size (fifo q) ≤ size - 1 ∧
  (head q = tail q ↔ queue_length size (fifo q) = 0).
Proof.
  intros Hs Hreach.
  destruct (reachable_represents size true q) as (l & Hrep & Hlen);
    [lia|done..|].
  rewrite (queue_length_represents _ _ _ Hrep).
  destruct Hrep as ((_ & _ & Hh & _) & _ & Htail & _).
  split; [lia|]. rewrite Htail, mod_wrap by lia. case_decide; lia.
Qed.

(** C4, amended. Truncation convergence: for a well-formed state and any
    [limit] (so for every [limit <= size - 1]), [check_and_truncate]
    returns; the occupancy afterwards is at most the maximum of [limit] and
    the occupancy before, and never more than the occupancy before. When
    the occupied slots are the circular run from [head] up to [tail] that
    holds the queue [l], oldest element first, the [k] evicted elements are
    the [k] oldest: whatever went had arrived before whatever stays, and the
    state afterwards holds [drop k l], which has
    [min (length l) (max 0 limit)] elements. *)
Theorem truncation_convergence size q limit :
  wf size q →
  ∃ q' (k : nat),
    check_and_truncate size q limit = Some q' ∧
    queue_length size (fifo q') ≤ Z.max limit (queue_length size (fifo q)) ∧
    queue_length size (fifo q') ≤ queue_length size (fifo q) ∧
    queue_length size (fifo q') = queue_length size (fifo q) - Z.of_nat k ∧
    ∀ l, represents size q l →
      (k ≤ length l)%nat ∧
      represents size q' (drop k l) ∧
      evicts_oldest l (fifo q) (fifo q') ∧
      Z.of_nat (length (drop k l))
        = Z.min (Z.of_nat (length l)) (Z.max 0 limit).
Proof.
  intros Hwf.
  destruct (check_and_truncate_run size q limit Hwf)
    as (k & Hrun & Hk & Hlen & Hend & Hbefore).
  exists (evict_n k size q), k. split_and!; [done|lia|lia|done|].
  intros l Hrep.
  pose proof (queue_length_represents _ _ _ Hrep) as Hl.
  assert (Hkl : (k ≤ length l)%nat) by lia.
  pose proof (evict_n_represents size k q l Hrep Hkl) as Hrep'.
  split_and!; [done..| |].
  { intros x y Hx Hgone Hy.
    rewrite (represents_elem _ _ _ _ Hrep) in Hx.
    rewrite (represents_elem _ _ _ _ Hrep') in Hgone.
    rewrite (represents_elem _ _ _ _ Hrep') in Hy.
    apply list_elem_of_lookup in Hx as [i Hi], Hy as [j Hj].
    rewrite lookup_drop in Hj. exists i, (k + j)%nat. split_and!; [done..|].
    destruct (decide (i < k)%nat); [lia|]. destruct Hgone.
    apply (list_elem_of_lookup_2 _ (i - k)). rewrite lookup_drop.
    by replace (k + (i - k))%nat with i by lia. }
  pose proof (queue_length_represents _ _ _ Hrep') as Hl'.
  rewrite Hl' in Hend. apply guard_false in Hend.
  rewrite (represents_head _ _ _ Hrep') in Hend.
  assert (Hstop : length (drop k l) = 0%nat ∨
                  Z.of_nat (length (drop k l)) ≤ limit).
  { destruct Hend as [E|E]; [left|by right]. by destruct (drop k l). }
  rewrite length_drop in *.
  destruct k as [|k]; [lia|].
  specialize (Hbefore k ltac:(lia)).
  assert (Hkl' : (k ≤ length l)%nat) by lia.
  rewrite (queue_length_represents _ _ _
             (evict_n_represents size k q l Hrep Hkl')) in Hbefore.
  apply guard_true in Hbefore as [_ Hgt]. rewrite length_drop in Hgt. lia.
Qed.

(** C5, amended. Every eviction of [check_and_truncate] (one iteration of
    its loop, entered when the guard holds) clears the slot at [head] and
    advances [head] by one modulo [size], whatever [tail] is: the function
    does not read [tail]. Whenever [head <> tail] this is exactly the state
    change of [dequeue]. *)
Theorem eviction_step size q len limit fuel :
  wf size q → guard q len limit = true →
  truncate_loop (S fuel) size q len limit
    = truncate_loop fuel size (evict size q) (len - 1) limit ∧
  evict size q
    = State (wr (fifo q) (head q) NULL) ((head q + 1) mod size) (tail q) ∧
  rd (fifo (evict size q)) (head q) = NULL ∧
  (head q ≠ tail q → (dequeue size q).1 = evict size q).
Proof.
  intros (Hs & Hn & Hh & Ht) G. split; [simpl; by rewrite G|].
  apply guard_true in G as [E _]. split; [|split].
  - unfold evict. by rewrite Z.rem_mod_nonneg by lia.
  - unfold evict. simpl. apply rd_wr_eq. lia.
  - intros Hne. by rewrite dequeue_evict.
Qed.

(** C6. Empty-queue idempotence: in a state whose head slot is empty,
    [dequeue] returns [NULL] ("no element") and leaves [head], [tail] and
    every slot as they were; so does each of any number of repeated calls. *)
Theorem dequeue_empty_unchanged size q n :
  rd (fifo q) (head q) = NULL →
  dequeue size q = (q, NULL) ∧ dequeue_n size q n = (q, replicate n NULL).
Proof.
  intros E. split; [by apply dequeue_null|by apply dequeue_n_null].
Qed.

(** C8. For a well-formed state and any integer [limit],
    [check_and_truncate] terminates: the loop returns a state with the fuel
    of the definition and with any larger fuel. It performs [k] evictions
    and stops at the first state in which the occupancy is at most [limit]
    or the head slot is empty: before each eviction the occupancy exceeds
    [limit] and the head slot is occupied. The result is a state only; the
    function has no status to report an overflow or an underflow with. *)
Theorem check_and_truncate_terminates size q limit :
  wf size q →
  ∃ q' (k : nat),
    check_and_truncate size q limit = Some q' ∧
    (∀ fuel, (length (fifo q) ≤ fuel)%nat →
       truncate_loop fuel size q (queue_length size (fifo q)) limit = Some q') ∧
    q' = evict_n k size q ∧
    (queue_length size (fifo q') ≤ limit ∨ rd (fifo q') (head q') = NULL) ∧
    ∀ j : nat, (j < k)%nat →
      queue_length size (fifo (evict_n j size q)) > limit ∧
      rd (fifo (evict_n j size q)) (head (evict_n j size q)) ≠ NULL.
Proof.
  intros Hwf.
  destruct (check_and_truncate_run size q limit Hwf)
    as (k & Hrun & Hk & Hlen & Hend & Hbefore).
  exists (evict_n k size q), k. split_and!; [done| |done| |].
  - intros fuel Hfuel. eapply truncate_loop_fuel; [|exact Hrun]. done.
  - apply guard_false in Hend. tauto.
  - intros j Hj. apply Hbefore, guard_true in Hj as [E Hgt].
    split; [done|]. intros E'. by rewrite E' in E.
Qed.

(** C9. For a well-formed state and a [limit] outside [0 .. size - 1],
    [check_and_truncate] removes nothing but elements that are present:
    every slot keeps its content or is cleared, [tail] is untouched and the
    occupancy stays between 0 and its value before. Whenever the occupancy
    is already at most [limit], and so for every [limit > size - 1], the
    call leaves the state exactly as it was. *)
Theorem limit_out_of_range size q limit :
  wf size q → limit < 0 ∨ size - 1 < limit →
  ∃ q',
    check_and_truncate size q limit = Some q' ∧
    (queue_length size (fifo q) ≤ limit → q' = q) ∧
    (size - 1 < limit → q' = q) ∧
    (∀ i, rd (fifo q') i = rd (fifo q) i ∨ rd (fifo q') i = NULL) ∧
    tail q' = tail q ∧
    0 ≤ queue_length size (fifo q') ≤ queue_length size (fifo q).
Proof.
  intros Hwf _.
  destruct (check_and_truncate_run size q limit Hwf)
    as (k & Hrun & Hk & Hlen & Hend & Hbefore).
  pose proof Hwf as (Hs & _).
  pose proof (queue_length_bounds size (fifo q)) as Hb.
  assert (Hnoop : queue_length size (fifo q) ≤ limit → evict_n k size q = q).
  { intros Hle. destruct k as [|k]; [done|].
    specialize (Hbefore 0%nat ltac:(lia)). simpl in Hbefore.
    apply guard_true in Hbefore. lia. }
  pose proof (queue_length_bounds size (fifo (evict_n k size q))) as Hb'.
  exists (evict_n k size q). split_and!; [done..| | | |lia|lia].
  - intros Hbig. apply Hnoop. lia.
  - apply rd_evict_n.
  - apply tail_evict_n.
Qed.

(** C10. In a well-formed state in which every slot is occupied and
    [head = tail], [enqueue] overwrites the slot at [tail], advances [tail]
    by one modulo [size], leaves [head] alone and returns 1 (overflow),
    the status of any other overflow; every slot is still occupied
    afterwards. When the state holds a queue [l], as it does after the
    [enqueue] that first overflowed, the overwritten slot held the oldest
    element of [l]. *)
Theorem enqueue_on_full size q e :
  wf size q → head q = tail q →
  (∀ i, 0 ≤ i < size → rd (fifo q) i ≠ NULL) →
  enqueue size q (Some e)
    = (State (wr (fifo q) (tail q) (Some e)) (head q)
             ((tail q + 1) mod size), 1) ∧
  rd (fifo (enqueue size q (Some e)).1) (tail q) = Some e ∧
  (∀ i, 0 ≤ i < size → rd (fifo (enqueue size q (Some e)).1) i ≠ NULL) ∧
  (∀ l, represents size q l →
     ∃ x l', l = x :: l' ∧ rd (fifo q) (tail q) = Some x).
Proof.
  intros (Hs & Hn & Hh & Ht) Heq Hfull.
  assert (Hslots : ∀ i, 0 ≤ i < size →
            rd (wr (fifo q) (tail q) (Some e)) i ≠ NULL).
  { intros i Hi. destruct (decide (tail q = i)) as [<-|Hne].
    - by rewrite rd_wr_eq by lia.
    - rewrite rd_wr_ne by done. by apply Hfull. }
  assert (Hnext : 0 ≤ Z.rem (tail q + 1) size < size).
  { rewrite rem_wrap by lia. case_decide; lia. }
  assert (Hst : enqueue size q (Some e)
    = (State (wr (fifo q) (tail q) (Some e)) (head q)
             ((tail q + 1) mod size), 1)).
  { rewrite <- Z.rem_mod_nonneg by lia. unfold enqueue.
    specialize (Hslots _ Hnext).
    by destruct (rd (wr (fifo q) (tail q) (Some e)) (Z.rem (tail q + 1) size)). }
  rewrite Hst. simpl. split; [done|]. split; [apply rd_wr_eq; lia|].
  split; [done|]. intros l Hrep.
  pose proof (represents_head _ _ _ Hrep) as Hx. rewrite Heq in Hx.
  destruct l as [|x l'].
  - by destruct (Hfull (tail q)).
  - by exists x, l'.
Qed.

End properties.

(** ** The example runs, and the properties at concrete states *)

Ltac wf_by_computation := unfold wf; vm_compute; intuition congruence.

Lemma wf_overflowed : wf 2 overflowed.
Proof. wf_by_computation. Defined.

Lemma wf_three_of_four : wf 4 three_of_four.
Proof. wf_by_computation. Defined.

Lemma wf_one_of_three : wf 3 one_of_three.
Proof. wf_by_computation. Defined.

Lemma overflowed_no_null i : 0 ≤ i < 2 → rd (fifo overflowed) i ≠ NULL.
Proof.
  intros Hi. assert (i = 0 ∨ i = 1) as [-> | ->] by lia; vm_compute; congruence.
Defined.

Lemma reachable_overflowed : reachable 2 false overflowed.
Proof.
  exact (reach_enqueue 2 _ _ "cd"%string
           (reach_enqueue 2 _ _ "ab"%string (reach_empty 2))).
Defined.

Lemma reachable_one_of_three : reachable 3 true one_of_three.
Proof. exact (reach_enqueue 3 _ _ "ab"%string (reach_empty 3)). Defined.

Lemma enqueue_capacity_bound_20 :
  2 ≤ 20 ∧ Z.of_nat (length twenty_arrivals) = 20 ∧
  (enqueue_all 20 (empty 20) twenty_arrivals).2 = replicate 19 0 ++ [1].
Proof.
  split; [lia|]. split; [reflexivity|].
  apply (enqueue_capacity_bound 20 twenty_arrivals); [lia|reflexivity].
Defined.

Lemma fifo_order_three :
  0 < 4 ∧
  Forall (λ status, status = 0)
         (enqueue_all 4 (empty 4) ["ab"; "cd"; "ef"]%string).2 ∧
  (dequeue_n 4 three_of_four 3).2
    = [Some "ab"; Some "cd"; Some "ef"]%string.
Proof.
  assert (Hok : Forall (λ status, status = 0)
                  (enqueue_all 4 (empty 4) ["ab"; "cd"; "ef"]%string).2)
    by (vm_compute; repeat constructor).
  split; [lia|]. split; [exact Hok|].
  apply (fifo_order 4 ["ab"; "cd"; "ef"]%string); [lia|exact Hok].
Defined.

(** C3 as stated fails: two [enqueue] calls on the empty queue of capacity
    2 occupy both slots, one more than [size - 1], and leave [head = tail]
    on a queue that is not empty. *)
Lemma occupancy_bound_exceeded :
  2 ≤ 2 ∧ reachable 2 false overflowed ∧
  queue_length 2 (fifo overflowed) = 2 ∧
  ¬ queue_length 2 (fifo overflowed) ≤ 2 - 1 ∧
  head overflowed = tail overflowed ∧
  queue_length 2 (fifo overflowed) ≠ 0.
Proof.
  split_and!; [lia|exact reachable_overflowed|reflexivity|
               vm_compute; congruence|reflexivity|vm_compute; congruence].
Qed.

Lemma occupancy_bound_one_of_three :
  2 ≤ 3 ∧ reachable 3 true one_of_three ∧
  queue_length 3 (fifo one_of_three) ≤ 3 - 1 ∧
  (head one_of_three = tail one_of_three
   ↔ queue_length 3 (fifo one_of_three) = 0).
Proof.
  split; [lia|]. split; [exact reachable_one_of_three|].
  apply (occupancy_bound_without_overflow 3 one_of_three);
    [lia|exact reachable_one_of_three].
Defined.

Lemma truncation_convergence_three_of_four :
  wf 4 three_of_four ∧
  ∃ q' (k : nat),
    check_and_truncate 4 three_of_four 1 = Some q' ∧
    queue_length 4 (fifo q') ≤ Z.max 1 (queue_length 4 (fifo three_of_four)) ∧
    queue_length 4 (fifo q') ≤ queue_length 4 (fifo three_of_four) ∧
    queue_length 4 (fifo q')
      = queue_length 4 (fifo three_of_four) - Z.of_nat k ∧
    ∀ l, represents 4 three_of_four l →
      (k ≤ length l)%nat ∧
      represents 4 q' (drop k l) ∧
      evicts_oldest l (fifo three_of_four) (fifo q') ∧
      Z.of_nat (length (drop k l)) = Z.min (Z.of_nat (length l)) (Z.max 0 1).
Proof.
  split; [exact wf_three_of_four|].
  apply (truncation_convergence 4 three_of_four 1). exact wf_three_of_four.
Defined.

(** C5 as stated fails: in the state left by the overflowing [enqueue],
    where [head = tail] and the head slot is occupied, the eviction of
    [check_and_truncate] moves [head] to 1 and [dequeue] leaves it at 0. *)
Lemma eviction_differs_from_dequeue :
  wf 2 overflowed ∧
  guard overflowed (queue_length 2 (fifo overflowed)) 1 = true ∧
  check_and_truncate 2 overflowed 1 = Some (evict 2 overflowed) ∧
  evict 2 overflowed = State [None; Some "cd"%string] 1 0 ∧
  (dequeue 2 overflowed).1 = State [None; Some "cd"%string] 0 0 ∧
  evict 2 overflowed ≠ (dequeue 2 overflowed).1.
Proof.
  split_and!; [exact wf_overflowed|reflexivity..|vm_compute; congruence].
Qed.

Lemma eviction_step_overflowed :
  wf 2 overflowed ∧ guard overflowed 2 1 = true ∧
  truncate_loop 2 2 overflowed 2 1
    = truncate_loop 1 2 (evict 2 overflowed) (2 - 1) 1 ∧
  evict 2 overflowed
    = State (wr (fifo overflowed) (head overflowed) NULL)
            ((head overflowed + 1) mod 2) (tail overflowed) ∧
  rd (fifo (evict 2 overflowed)) (head overflowed) = NULL ∧
  (head overflowed ≠ tail overflowed →
   (dequeue 2 overflowed).1 = evict 2 overflowed).
Proof.
  split; [exact wf_overflowed|]. split; [reflexivity|].
  apply (eviction_step 2 overflowed 2 1 1); [exact wf_overflowed|reflexivity].
Defined.

Lemma dequeue_empty_unchanged_initial :
  rd (fifo (@empty string 3)) (head (@empty string 3)) = NULL ∧
  dequeue 3 (@empty string 3) = (empty 3, NULL) ∧
  dequeue_n 3 (@empty string 3) 2 = (empty 3, replicate 2 NULL).
Proof.
  split; [reflexivity|].
  apply (dequeue_empty_unchanged 3 (@empty string 3) 2). reflexivity.
Defined.

(** C7. Round trip on the array of size 3, as [main] of [fifo_example.c]
    runs it: [dequeue] returns [NULL]; [enqueue "ab"] returns 0 and one slot
    is occupied; [enqueue "cd"] returns 0 and two slots are occupied;
    [dequeue] returns "ab" and one slot is occupied; [enqueue "ef"] returns
    0, with [tail] wrapping from 2 to 0; [dequeue] returns "cd"; [dequeue]
    returns "ef", with [head] wrapping from 2 to 0; the last [dequeue]
    returns [NULL]. *)
Theorem round_trip :
  Example3.call1.2 = NULL ∧
  Example3.call2.2 = 0 ∧ queue_length 3 (fifo Example3.call2.1) = 1 ∧
  Example3.call3.2 = 0 ∧ queue_length 3 (fifo Example3.call3.1) = 2 ∧
  Example3.call4.2 = Some "ab"%string ∧
  queue_length 3 (fifo Example3.call4.1) = 1 ∧
  Example3.call5.2 = 0 ∧
  tail Example3.call4.1 = 2 ∧ tail Example3.call5.1 = 0 ∧
  Example3.call6.2 = Some "cd"%string ∧
  Example3.call7.2 = Some "ef"%string ∧
  head Example3.call6.1 = 2 ∧ head Example3.call7.1 = 0 ∧
  Example3.call8.2 = NULL ∧
  Example3.call8.1 = empty 3.
Proof. split_and!; reflexivity. Qed.

(** The rest of that [main]: the third of three further [enqueue] calls
    fills the array and returns 1. *)
Lemma round_trip_overflow :
  Example3.call9.2 = 0 ∧ Example3.call10.2 = 0 ∧ Example3.call11.2 = 1 ∧
  queue_length 3 (fifo Example3.call11.1) = 3.
Proof. split_and!; reflexivity. Qed.

Lemma check_and_truncate_terminates_three_of_four :
  wf 4 three_of_four ∧
  ∃ q' (k : nat),
    check_and_truncate 4 three_of_four 1 = Some q' ∧
    (∀ fuel, (length (fifo three_of_four) ≤ fuel)%nat →
       truncate_loop fuel 4 three_of_four
         (queue_length 4 (fifo three_of_four)) 1 = Some q') ∧
    q' = evict_n k 4 three_of_four ∧
    (queue_length 4 (fifo q') ≤ 1 ∨ rd (fifo q') (head q') = NULL) ∧
    ∀ j : nat, (j < k)%nat →
      queue_length 4 (fifo (evict_n j 4 three_of_four)) > 1 ∧
      rd (fifo (evict_n j 4 three_of_four))
         (head (evict_n j 4 three_of_four)) ≠ NULL.
Proof.
  split; [exact wf_three_of_four|].
  apply (check_and_truncate_terminates 4 three_of_four 1).
  exact wf_three_of_four.
Defined.

Lemma limit_out_of_range_one_of_three :
  wf 3 one_of_three ∧ (5 < 0 ∨ 3 - 1 < 5) ∧
  ∃ q',
    check_and_truncate 3 one_of_three 5 = Some q' ∧
    (queue_length 3 (fifo one_of_three) ≤ 5 → q' = one_of_three) ∧
    (3 - 1 < 5 → q' = one_of_three) ∧
    (∀ i, rd (fifo q') i = rd (fifo one_of_three) i ∨ rd (fifo q') i = NULL) ∧
    tail q' = tail one_of_three ∧
    0 ≤ queue_length 3 (fifo q') ≤ queue_length 3 (fifo one_of_three).
Proof.
  assert (Hlimit : 5 < 0 ∨ 3 - 1 < 5) by (right; lia).
  split; [exact wf_one_of_three|]. split; [exact Hlimit|].
  apply (limit_out_of_range 3 one_of_three 5);
    [exact wf_one_of_three|exact Hlimit].
Defined.

Lemma enqueue_on_full_overflowed :
  wf 2 overflowed ∧ head overflowed = tail overflowed ∧
  (∀ i, 0 ≤ i < 2 → rd (fifo overflowed) i ≠ NULL) ∧
  enqueue 2 overflowed (Some "ef"%string)
    = (State (wr (fifo overflowed) (tail overflowed) (Some "ef"%string))
             (head overflowed) ((tail overflowed + 1) mod 2), 1) ∧
  rd (fifo (enqueue 2 overflowed (Some "ef"%string)).1) (tail overflowed)
    = Some "ef"%string ∧
  (∀ i, 0 ≤ i < 2 →
     rd (fifo (enqueue 2 overflowed (Some "ef"%string)).1) i ≠ NULL) ∧
  (∀ l, represents 2 overflowed l →
     ∃ x l', l = x :: l' ∧ rd (fifo overflowed) (tail overflowed) = Some x).
Proof.
  split; [exact wf_overflowed|]. split; [reflexivity|].
  split; [exact overflowed_no_null|].
  apply (enqueue_on_full 2 overflowed "ef"%string);
    [exact wf_overflowed|reflexivity|exact overflowed_no_null].
Defined.

(** C4 as stated fails: after "ab" .. "ij" were enqueued on the array of
    size 3, the last three calls returning 1, and "gh" was dequeued, two
    slots are occupied and the head slot holds the newest element, "ij";
    [check_and_truncate] with limit 1 evicts it and keeps the older "ef". *)
Lemma truncation_evicts_newest :
  wf 3 stale_head ∧ 1 ≤ 3 - 1 ∧
  (enqueue_all 3 (empty 3) five_arrivals).2 = [0; 0; 1; 1; 1] ∧
  (dequeue 3 (enqueue_all 3 (empty 3) five_arrivals).1).2
    = Some "gh"%string ∧
  stale_head = State [None; Some "ij"; Some "ef"]%string 1 2 ∧
  queue_length 3 (fifo stale_head) = 2 ∧
  check_and_truncate 3 stale_head 1
    = Some (State [None; None; Some "ef"%string] 2 2) ∧
  ¬ evicts_oldest five_arrivals (fifo stale_head)
                  [None; None; Some "ef"%string].
Proof.
  split_and!; [wf_by_computation|lia|reflexivity..|].
  intros Hold.
  destruct (Hold "ij" "ef"%string) as (i & j & Hi & Hj & Hlt).
  - vm_compute. apply list_elem_of_further, list_elem_of_here.
  - rewrite !elem_of_cons, elem_of_nil. intros [?|[?|[?|?]]]; congruence.
  - do 2 apply list_elem_of_further. apply list_elem_of_here.
  - destruct i as [|[|[|[|[|i]]]]]; try discriminate Hi.
    destruct j as [|[|[|[|[|j]]]]]; try discriminate Hj; lia.
Qed.

(** ** Further properties of the three operations *)

Section further.
Context {A : Type}.
Implicit Types (q : state A) (a : list (ptr A)) (p : ptr A) (l es : list A).

Lemma wf_dequeue size q : wf size q → wf size (dequeue size q).1.
Proof.
  intros Hwf. unfold dequeue. destruct (truthy _); [|done].
  case_decide; simpl; [by apply wf_evict|].
  destruct Hwf as (Hs & Hn & Hh & Ht). unfold wf. simpl.
  by rewrite length_wr.
Qed.

Lemma truncate_loop_stop fuel size q len limit :
  guard q len limit = false → truncate_loop fuel size q len limit = Some q.
Proof. intros G. destruct fuel; simpl; by rewrite G. Qed.

Lemma evict_n_add size k1 : ∀ k2 q,
  evict_n (k1 + k2) size q = evict_n k2 size (evict_n k1 size q).
Proof. induction k1 as [|k1 IH]; intros k2 q; [done|]. simpl. apply IH. Qed.

(** On a state that holds the queue [l], the truncation evicts exactly the
    elements beyond [max 0 limit]. *)
Lemma check_and_truncate_represents size q l limit :
  represents size q l →
  check_and_truncate size q limit
    = Some (evict_n (Z.to_nat (Z.of_nat (length l) - Z.max 0 limit)) size q) ∧
  represents size
    (evict_n (Z.to_nat (Z.of_nat (length l) - Z.max 0 limit)) size q)
    (drop (Z.to_nat (Z.of_nat (length l) - Z.max 0 limit)) l).
Proof.
  intros Hrep.
  destruct (check_and_truncate_run size q limit (represents_wf _ _ _ Hrep))
    as (k & Hrun & Hk & Hlen & Hend & Hbefore).
  pose proof (queue_length_represents _ _ _ Hrep) as Hl.
  assert (Hkl : (k ≤ length l)%nat) by lia.
  pose proof (evict_n_represents size k q l Hrep Hkl) as Hrep'.
  assert (Hkeq : Z.to_nat (Z.of_nat (length l) - Z.max 0 limit) = k);
    [|by rewrite Hkeq].
  rewrite (queue_length_represents _ _ _ Hrep') in Hend.
  apply guard_false in Hend.
  rewrite (represents_head _ _ _ Hrep') in Hend.
  assert (Hstop : length (drop k l) = 0%nat ∨
                  Z.of_nat (length (drop k l)) ≤ limit).
  { destruct Hend as [E|E]; [left|by right]. by destruct (drop k l). }
  rewrite length_drop in Hstop.
  destruct k as [|k]; [lia|].
  specialize (Hbefore k ltac:(lia)).
  assert (Hkl' : (k ≤ length l)%nat) by lia.
  rewrite (queue_length_represents _ _ _
             (evict_n_represents size k q l Hrep Hkl')) in Hbefore.
  apply guard_true in Hbefore as [_ Hgt]. rewrite length_drop in Hgt. lia.
Qed.

(** X1. From a state whose indices are inside the array, each of the three
    operations leaves the indices inside the array and the array at its
    length, whatever pointer (also [NULL]) is enqueued and whatever the
    limit: no call indexes outside [fifo]. *)
Theorem operations_keep_indices_in_range size q p limit :
  wf size q →
  wf size (enqueue size q p).1 ∧
  wf size (dequeue size q).1 ∧
  ∃ q', check_and_truncate size q limit = Some q' ∧ wf size q'.
Proof.
  intros Hwf. split_and!; [by apply wf_enqueue|by apply wf_dequeue|].
  destruct (check_and_truncate_run size q limit Hwf) as (k & Hrun & _).
  exists (evict_n k size q). split; [done|]. by apply wf_evict_n.
Qed.

(** X2. In any well-formed state the occupancy count follows the slots:
    [enqueue] raises it by one when the slot at [tail] was empty and leaves
    it when that slot was occupied (the element there is overwritten);
    [dequeue] lowers it by one when the slot at [head] is occupied and
    leaves it otherwise. *)
Theorem occupancy_accounting size q e :
  wf size q →
  queue_length size (fifo (enqueue size q (Some e)).1)
    = queue_length size (fifo q) + 1 - occ (rd (fifo q) (tail q)) ∧
  queue_length size (fifo (dequeue size q).1)
    = queue_length size (fifo q) - occ (rd (fifo q) (head q)).
Proof.
  intros (Hs & Hn & Hh & Ht). split.
  - rewrite enqueue_fst. simpl. rewrite queue_length_wr by done.
    unfold occ at 1. simpl. lia.
  - unfold dequeue, occ. destruct (truthy (rd (fifo q) (head q))) eqn:E.
    + assert (queue_length size (wr (fifo q) (head q) NULL)
              = queue_length size (fifo q) - 1) as Hq.
      { rewrite queue_length_wr by done. unfold occ. rewrite E. simpl. lia. }
      by case_decide.
    + simpl. lia.
Qed.

(** X3. On a state that holds the queue [l] with a free slot left,
    [enqueue] appends the element to the queue, and returns 1 (overflow)
    exactly when the element took the last free slot, 0 otherwise. *)
Theorem enqueue_appends size q l e :
  represents size q l → Z.of_nat (length l) < size →
  represents size (enqueue size q (Some e)).1 (l ++ [e]) ∧
  ((enqueue size q (Some e)).2 = 0 ↔ Z.of_nat (length l) + 1 < size) ∧
  ((enqueue size q (Some e)).2 = 1 ↔ Z.of_nat (length l) + 1 = size).
Proof.
  intros Hrep Hroom.
  destruct (enqueue_represents size q l e Hrep Hroom) as [Hrep' ->].
  split; [done|]. case_decide; split; split; intros; done || lia.
Qed.

(** X4. On a state that holds the queue [l] with a free slot left,
    [dequeue] returns the oldest element, or [NULL] when the queue is
    empty, and leaves the rest of the queue in place. *)
Theorem dequeue_takes_oldest size q l :
  represents size q l → Z.of_nat (length l) < size →
  (dequeue size q).2 = l !! 0%nat ∧
  represents size (dequeue size q).1 (drop 1 l).
Proof.
  intros Hrep Hroom. destruct l as [|x l].
  - rewrite dequeue_null; [done|]. by rewrite (represents_head _ _ _ Hrep).
  - rewrite (dequeue_represents _ _ _ _ Hrep Hroom). simpl.
    split; [done|]. rewrite drop_0. by eapply evict_represents.
Qed.

Lemma fifo_run_cons size l (c : call A) cs :
  fifo_run size l (c :: cs) =
  ((fifo_run size (fifo_step size l c).1 cs).1,
   (fifo_step size l c).2 :: (fifo_run size (fifo_step size l c).1 cs).2).
Proof.
  simpl. destruct (fifo_step size l c) as [l1 r]. simpl.
  by destruct (fifo_run size l1 cs).
Qed.

Lemma perform_represents size q l c :
  represents size q l → Z.of_nat (length l) < size →
  fifo_fits size l [c] →
  ∃ q', perform size q c = Some (q', (fifo_step size l c).2) ∧
        represents size q' (fifo_step size l c).1 ∧
        Z.of_nat (length (fifo_step size l c).1) < size.
Proof.
  intros Hrep Hroom [Hfit _]. destruct c as [e| |limit]; simpl.
  - destruct (enqueue_represents size q l e Hrep Hroom) as [Hrep' ->].
    eexists. split; [done|]. split; [done|]. rewrite length_app. simpl. lia.
  - destruct l as [|x l].
    + rewrite dequeue_null by by rewrite (represents_head _ _ _ Hrep).
      by eexists.
    + rewrite (dequeue_represents _ _ _ _ Hrep Hroom). simpl.
      eexists. split; [done|]. split; [by eapply evict_represents|].
      simpl in Hroom. lia.
  - destruct (check_and_truncate_represents size q l limit Hrep) as [-> Hrep'].
    eexists. split; [done|]. split; [done|]. rewrite length_drop. lia.
Qed.

(** X5. Any sequence of [enqueue], [dequeue] and [check_and_truncate]
    calls, started on a state that holds the queue [l], returns what the
    first-in first-out list returns, call by call, and ends in a state that
    holds the list's final queue, as long as no arrival finds [size - 1]
    elements queued. This covers runs of any length, with [head] and [tail]
    wrapping around the array any number of times. *)
Theorem perform_all_refines_fifo size cs : ∀ q l,
  represents size q l → Z.of_nat (length l) < size →
  fifo_fits size l cs →
  ∃ q', perform_all size q cs = Some (q', (fifo_run size l cs).2) ∧
        represents size q' (fifo_run size l cs).1 ∧
        Z.of_nat (length (fifo_run size l cs).1) < size.
Proof.
  induction cs as [|c cs IH]; intros q l Hrep Hroom Hfits.
  - exists q. by simpl.
  - destruct Hfits as [Hfit Hfits].
    destruct (perform_represents size q l c Hrep Hroom) as (q1 & Hc & Hrep1 & H1);
      [by split|].
    destruct (IH q1 _ Hrep1 H1 Hfits) as (q2 & Hcs & Hrep2 & H2).
    exists q2. rewrite fifo_run_cons. simpl. by rewrite Hc, Hcs.
Qed.

(** X17. Any sequence of calls started in a well-formed state runs to its
    end, overflows or not: every call returns, the truncations within their
    iteration bound, and the final state is well-formed again. *)
Theorem perform_all_completes size cs : ∀ q,
  wf size q →
  ∃ q' rs, perform_all size q cs = Some (q', rs) ∧
           wf size q' ∧ length rs = length cs.
Proof.
  induction cs as [|c cs IH]; intros q Hwf.
  - by exists q, [].
  - assert (∃ q1 r, perform size q c = Some (q1, r) ∧ wf size q1)
      as (q1 & r & Hc & Hwf1).
    { destruct c as [e| |limit]; simpl.
      - eexists _, _. split; [done|]. by apply wf_enqueue.
      - eexists _, _. split; [done|]. by apply wf_dequeue.
      - destruct (check_and_truncate_run size q limit Hwf) as (k & -> & _).
        eexists _, _. split; [done|]. by apply wf_evict_n. }
    destruct (IH q1 Hwf1) as (q2 & rs & Hcs & Hwf2 & Hlen).
    exists q2, (r :: rs). simpl. rewrite Hc, Hcs.
    split_and!; [done..|]. by rewrite Hlen.
Qed.

(** X6. [check_and_truncate] run again, with the same or a larger limit,
    changes nothing: in any well-formed state the result of a truncation is
    a fixed point of every truncation that is not stricter. *)
Theorem truncation_is_idempotent size q limit limit' q' :
  wf size q → check_and_truncate size q limit = Some q' → limit ≤ limit' →
  check_and_truncate size q' limit' = Some q'.
Proof.
  intros Hwf Hrun Hle.
  destruct (check_and_truncate_run size q limit Hwf)
    as (k & Hrun' & _ & _ & Hend & _).
  rewrite Hrun in Hrun'. injection Hrun' as ->.
  apply truncate_loop_stop, guard_false.
  apply guard_false in Hend as [E|E]; [by left|right; lia].
Qed.

(** X7. On a state that holds a queue, truncating to [limit] and then to a
    stricter [limit'] gives the state that truncating to [limit'] at once
    gives. *)
Theorem truncation_composes size q l limit limit' q1 :
  represents size q l → limit' ≤ limit →
  check_and_truncate size q limit = Some q1 →
  check_and_truncate size q1 limit' = check_and_truncate size q limit'.
Proof.
  intros Hrep Hle Hrun.
  destruct (check_and_truncate_represents size q l limit Hrep) as [Hk1 Hrep1].
  rewrite Hrun in Hk1. injection Hk1 as ->.
  destruct (check_and_truncate_represents size _ _ limit' Hrep1) as [-> _].
  destruct (check_and_truncate_represents size q l limit' Hrep) as [-> _].
  rewrite <- evict_n_add, length_drop. do 2 f_equal. lia.
Qed.

(** X8. On a state that holds a queue, a truncation with a limit of zero or
    less evicts every element: no slot stays occupied and [head] meets
    [tail]. *)
Theorem truncation_to_nothing size q l limit :
  represents size q l → limit ≤ 0 →
  ∃ q', check_and_truncate size q limit = Some q' ∧
        represents size q' [] ∧
        queue_length size (fifo q') = 0 ∧
        head q' = tail q'.
Proof.
  intros Hrep Hle.
  destruct (check_and_truncate_represents size q l limit Hrep) as [Hrun Hrep'].
  rewrite drop_ge in Hrep' by lia.
  eexists. split; [exact Hrun|]. split; [done|].
  split; [by rewrite (queue_length_represents _ _ _ Hrep')|].
  destruct Hrep' as ((Hs & _ & Hh & _) & _ & -> & _). simpl.
  by rewrite Z.add_0_r, Z.mod_small by lia.
Qed.

(** X9. After an overflow the queue fills the whole array and
    [head = tail]. [dequeue] then returns the oldest element but does not
    move [head]: the slot at [head] is empty, the other [size - 1] elements
    stay in the array, and every later [dequeue] returns [NULL] and every
    [check_and_truncate] leaves the state as it is, as if the queue were
    empty. *)
Theorem dequeue_from_full_strands_the_rest size q l n limit :
  represents size q l → Z.of_nat (length l) = size →
  (dequeue size q).2 = l !! 0%nat ∧
  l !! 0%nat ≠ None ∧
  head (dequeue size q).1 = head q ∧
  queue_length size (fifo (dequeue size q).1) = size - 1 ∧
  (∀ j, 0 ≤ j < size → j ≠ head q →
        rd (fifo (dequeue size q).1) j = rd (fifo q) j ∧ rd (fifo q) j ≠ NULL) ∧
  dequeue_n size (dequeue size q).1 n = ((dequeue size q).1, replicate n NULL) ∧
  check_and_truncate size (dequeue size q).1 limit = Some (dequeue size q).1.
Proof.
  intros Hrep Hfull.
  destruct (represents_full _ _ _ Hrep Hfull) as [Heq Hocc].
  pose proof (represents_head _ _ _ Hrep) as Hx.
  pose proof (queue_length_represents _ _ _ Hrep) as Hl.
  pose proof Hrep as ((Hs & Hn & Hh & Ht) & _).
  destruct l as [|x l]; [simpl in Hfull; lia|]. simpl in Hx.
  assert (Hd : dequeue size q
               = (State (wr (fifo q) (head q) NULL) (head q) (tail q), Some x)).
  { unfold dequeue. rewrite Hx. simpl. by rewrite decide_False by tauto. }
  assert (Hnull : rd (wr (fifo q) (head q) NULL) (head q) = NULL)
    by (apply rd_wr_eq; lia).
  rewrite Hd. simpl. split_and!; try done.
  - rewrite queue_length_wr by done. rewrite Hx. unfold occ. simpl. lia.
  - intros j Hj Hne. split; [by apply rd_wr_ne|by apply Hocc].
  - by apply dequeue_n_null.
  - apply truncate_loop_stop, guard_false. by left.
Qed.

(** X10. With an array of size 1 every [enqueue] returns 1 (overflow),
    and yet the element is stored: the next [dequeue] returns it and leaves
    the array empty. *)
Theorem capacity_one q e :
  wf 1 q →
  (enqueue 1 q (Some e)).2 = 1 ∧
  dequeue 1 (enqueue 1 q (Some e)).1 = (empty 1, Some e).
Proof.
  intros (_ & Hn & Hh & Ht). destruct q as [a h t]. simpl in *.
  assert (h = 0) as -> by lia. assert (t = 0) as -> by lia.
  destruct a as [|p [|p' a]]; simpl in Hn; try lia. done.
Qed.

Lemma rd_middle (pre : list (ptr A)) p a :
  rd (pre ++ p :: a) (Z.of_nat (length pre)) = p.
Proof.
  unfold rd. rewrite decide_True, Nat2Z.id by lia.
  by rewrite list_lookup_middle.
Qed.

Lemma scan_count a : ∀ pre : list (ptr A),
  scan (length a) (Z.of_nat (length pre)) (pre ++ a) 0
  = Z.of_nat (length (filter is_Some a)).
Proof.
  induction a as [|p a IH]; intros pre; [done|].
  change (length (p :: a)) with (S (length a)).
  rewrite scan_step, rd_middle, filter_cons.
  specialize (IH (pre ++ [p])).
  rewrite <- app_assoc, length_app in IH. simpl in IH.
  replace (Z.of_nat (length pre) + 1) with (Z.of_nat (length pre + 1)) by lia.
  rewrite IH. unfold occ.
  destruct p as [x|];
    [rewrite decide_True by done|rewrite decide_False by (by intros [? ?])];
    simpl; unfold ptr in *; lia.
Qed.

Lemma show_scan_spec a : ∀ (pre : list (ptr A)) len vis,
  show_scan (length a) (Z.of_nat (length pre)) (pre ++ a) len vis
  = (vis ++ (mark <$> a),
     len + scan (length a) (Z.of_nat (length pre)) (pre ++ a) 0).
Proof.
  induction a as [|p a IH]; intros pre len vis.
  - simpl. by rewrite app_nil_r, Z.add_0_r.
  - change (length (p :: a)) with (S (length a)).
    rewrite scan_step. cbn [show_scan]. rewrite rd_middle.
    specialize (IH (pre ++ [p])).
    rewrite <- app_assoc, length_app in IH. simpl in IH.
    replace (Z.of_nat (length pre) + 1) with (Z.of_nat (length pre + 1)) by lia.
    unfold occ, mark. destruct (truthy p) eqn:E; rewrite IH; simpl;
      rewrite <- app_assoc; simpl; unfold mark; rewrite ?E; f_equal; lia.
Qed.

(** X11. The counting loop returns the number of entries of the array that
    are not [NULL], when [size] is the length of the array. *)
Theorem queue_length_counts_occupied size a :
  Z.of_nat (length a) = size →
  queue_length size a = Z.of_nat (length (filter is_Some a)).
Proof.
  intros <-. unfold queue_length. rewrite Nat2Z.id. apply (scan_count a []).
Qed.

(** X12. [show_queue] on an array of length [array_size] hands [printf] one
    character per slot, in slot order, '*' for an occupied slot and ' ' for
    an empty one, together with the occupancy count; the number of '*' is
    that count. *)
Theorem show_queue_displays_slots array_size a :
  Z.of_nat (length a) = array_size →
  show_queue a array_size = (mark <$> a, queue_length array_size a) ∧
  Z.of_nat (length (show_queue a array_size).1) = array_size ∧
  Z.of_nat (length (filter (λ c, c = "*"%char) (show_queue a array_size).1))
    = (show_queue a array_size).2.
Proof.
  intros <-.
  assert (Hshow : show_queue a (Z.of_nat (length a))
                  = (mark <$> a, queue_length (Z.of_nat (length a)) a)).
  { unfold show_queue, queue_length. rewrite Nat2Z.id.
    exact (show_scan_spec a [] 0 []). }
  rewrite Hshow. simpl. split; [done|]. split; [by rewrite length_fmap|].
  unfold queue_length. rewrite Nat2Z.id.
  change (scan (length a) 0 a 0)
    with (scan (length a) (Z.of_nat (length (@nil (ptr A)))) ([] ++ a) 0).
  rewrite scan_count. f_equal.
  clear Hshow. induction a as [|p a IH]; [done|].
  rewrite fmap_cons, !filter_cons. unfold mark at 1.
  destruct p as [x|]; simpl truthy; cbv iota.
  - rewrite !decide_True by done. simpl. by rewrite IH.
  - rewrite decide_False by done.
    by rewrite decide_False by (by intros [? ?]).
Qed.

End further.

(** ** The simulation loops *)

Section simulation.
Variable rand : nat → Z.
Implicit Types (v : Main.vars) (ex : Main.example) (l : list string).

Lemma show_queue_eq {A} (a : list (ptr A)) size :
  Z.of_nat (length a) = size →
  show_queue a size = (mark <$> a, queue_length size a).
Proof.
  intros <-. unfold show_queue, queue_length. rewrite Nat2Z.id.
  exact (show_scan_spec a [] 0 []).
Qed.

Lemma iteration_unfold ex size v :
  Main.iteration rand ex size v =
  match
    (if Main.truncates ex v
     then check_and_truncate size (Main.after_departure rand ex size v) 2
     else Some (Main.after_departure rand ex size v))
  with
  | Some q3 =>
      Some (Main.Vars q3 (Main.after_arrival rand ex size v).2
              (Main.iterations v + 1) (Main.departs rand ex v).2
              (Main.shown v ++ [show_queue (fifo q3) size]))
  | None => None
  end.
Proof.
  unfold Main.iteration, Main.after_departure, Main.after_arrival,
    Main.truncates, Main.departs, Main.arrives.
  destruct (Main.fires rand (Main.arrival ex) _ _) as [[] n1]; simpl;
    [destruct (enqueue size (Main.queue v) _) as [q1 st1]; simpl|];
    by destruct (Main.fires rand (Main.departure ex) _ _) as [[] n2].
Qed.

Lemma loop_stop fuel ex size v :
  Main.status v ≠ 0 ∨ Main.max_iterations ex ≤ Main.iterations v →
  Main.loop rand fuel ex size v = Some v.
Proof.
  intros Hstop.
  assert (bool_decide (Main.status v = 0)
          && bool_decide (Main.iterations v < Main.max_iterations ex) = false)
    as G.
  { apply andb_false_iff. rewrite !bool_decide_eq_false. lia. }
  destruct fuel; simpl; by rewrite G.
Qed.

Lemma loop_step fuel ex size v v' :
  Main.status v = 0 → Main.iterations v < Main.max_iterations ex →
  Main.iteration rand ex size v = Some v' →
  Main.loop rand (S fuel) ex size v = Main.loop rand fuel ex size v'.
Proof.
  intros Hst Hit Hv'. simpl.
  rewrite (bool_decide_eq_true_2 _ Hst), (bool_decide_eq_true_2 _ Hit), Hv'.
  done.
Qed.

(** The three steps of an iteration on a state that holds a queue. *)
Lemma after_arrival_represents ex size v l :
  Main.status v = 0 → represents size (Main.queue v) l →
  Z.of_nat (length l) < size →
  ∃ l1, represents size (Main.after_arrival rand ex size v).1 l1 ∧
        Z.of_nat (length l1)
          = Z.of_nat (length l) + (if (Main.arrives rand ex v).1 then 1 else 0) ∧
        (Main.after_arrival rand ex size v).2
          = if decide (Z.of_nat (length l1) < size) then 0 else 1.
Proof.
  intros Hst Hrep Hroom. unfold Main.after_arrival.
  destruct (Main.arrives rand ex v).1.
  - destruct (enqueue_represents size _ l "ab"%string Hrep Hroom) as [Hrep1 ->].
    exists (l ++ ["ab"%string]). rewrite length_app. simpl.
    split; [done|]. split; [lia|]. repeat case_decide; lia.
  - exists l. simpl. split; [done|]. split; [lia|].
    by rewrite decide_True by lia.
Qed.

Lemma after_departure_represents ex size v l1 :
  represents size (Main.after_arrival rand ex size v).1 l1 →
  Z.of_nat (length l1) < size →
  ∃ l2, represents size (Main.after_departure rand ex size v) l2 ∧
        Z.of_nat (length l2)
          = if (Main.departs rand ex v).1
            then Z.max 0 (Z.of_nat (length l1) - 1)
            else Z.of_nat (length l1).
Proof.
  intros Hrep Hroom. unfold Main.after_departure.
  destruct (Main.departs rand ex v).1; [|by exists l1].
  destruct l1 as [|x l1].
  - exists []. rewrite dequeue_null; [done|].
    by rewrite (represents_head _ _ _ Hrep).
  - exists l1. rewrite (dequeue_represents _ _ _ _ Hrep Hroom). simpl.
    split; [by eapply evict_represents|lia].
Qed.

Lemma iteration_ok ex size v l :
  Main.status v = 0 → represents size (Main.queue v) l →
  Z.of_nat (length l) + (if (Main.arrives rand ex v).1 then 1 else 0) < size →
  ∃ v' l',
    Main.iteration rand ex size v = Some v' ∧
    Main.status v' = 0 ∧
    Main.iterations v' = Main.iterations v + 1 ∧
    represents size (Main.queue v') l' ∧
    Z.of_nat (length l') = Main.next_length rand ex v (Z.of_nat (length l)) ∧
    Main.shown v'
      = Main.shown v ++ [(mark <$> fifo (Main.queue v'), Z.of_nat (length l'))].
Proof.
  intros Hst Hrep Hroom.
  destruct (after_arrival_represents ex size v l Hst Hrep)
    as (l1 & Hrep1 & Hl1 & Hst1); [destruct (Main.arrives rand ex v).1; lia|].
  rewrite decide_True in Hst1 by lia.
  destruct (after_departure_represents ex size v l1 Hrep1)
    as (l2 & Hrep2 & Hl2); [lia|].
  assert (Hn2 : Z.of_nat (length l2)
    = if (Main.departs rand ex v).1
      then Z.max 0 ((if (Main.arrives rand ex v).1
                     then Z.of_nat (length l) + 1
                     else Z.of_nat (length l)) - 1)
      else (if (Main.arrives rand ex v).1
            then Z.of_nat (length l) + 1
            else Z.of_nat (length l))).
  { destruct (Main.arrives rand ex v).1, (Main.departs rand ex v).1; lia. }
  rewrite iteration_unfold, Hst1. unfold Main.next_length.
  cbv zeta. rewrite <- Hn2. clear Hn2 Hl1 Hl2.
  destruct (Main.truncates ex v).
  - destruct (check_and_truncate_represents size _ l2 2 Hrep2) as [-> Hrep3].
    eexists _, _. split; [done|]. simpl. split_and!; [done..|exact Hrep3| |].
    + rewrite length_drop. lia.
    + rewrite show_queue_eq, (queue_length_represents _ _ _ Hrep3); [done|].
      by destruct Hrep3 as ((_ & ? & _) & _).
  - eexists _, _. split; [done|]. simpl. split_and!; [done..|exact Hrep2|done|].
    rewrite show_queue_eq, (queue_length_represents _ _ _ Hrep2); [done|].
    by destruct Hrep2 as ((_ & ? & _) & _).
Qed.

Lemma iteration_overflow ex size v l :
  Main.status v = 0 → represents size (Main.queue v) l →
  (Main.arrives rand ex v).1 = true → Z.of_nat (length l) + 1 = size →
  ∃ v',
    Main.iteration rand ex size v = Some v' ∧
    Main.status v' = 1 ∧
    Main.iterations v' = Main.iterations v + 1 ∧
    wf size (Main.queue v') ∧
    (Main.truncates ex v = false →
     Main.queue v' = Main.after_departure rand ex size v) ∧
    Main.shown v'
      = Main.shown v ++ [(mark <$> fifo (Main.queue v'),
                          queue_length size (fifo (Main.queue v')))].
Proof.
  intros Hst Hrep Harr Hlast.
  destruct (enqueue_overflow size _ l "ab"%string Hrep Hlast)
    as (Hst1 & Hrep1 & _).
  assert (Hwf2 : wf size (Main.after_departure rand ex size v)).
  { unfold Main.after_departure, Main.after_arrival. rewrite Harr.
    destruct (Main.departs rand ex v).1;
      [apply wf_dequeue|]; by eapply represents_wf. }
  rewrite iteration_unfold.
  assert ((Main.after_arrival rand ex size v).2 = 1) as ->
    by (unfold Main.after_arrival; by rewrite Harr).
  destruct (Main.truncates ex v).
  - destruct (check_and_truncate_run size _ 2 Hwf2) as (k & -> & _).
    pose proof (wf_evict_n size k _ Hwf2) as Hwf3.
    eexists. split; [done|]. simpl. split_and!; [done..|].
    rewrite show_queue_eq; [done|]. by destruct Hwf3 as (_ & ? & _).
  - eexists. split; [done|]. simpl. split_and!; [done..|].
    rewrite show_queue_eq; [done|]. by destruct Hwf2 as (_ & ? & _).
Qed.

Lemma next_length_bounds ex v n :
  0 ≤ n →
  0 ≤ Main.next_length rand ex v n
    ≤ n + (if (Main.arrives rand ex v).1 then 1 else 0).
Proof.
  intros Hn. unfold Main.next_length.
  destruct (Main.arrives rand ex v).1, (Main.departs rand ex v).1,
    (Main.truncates ex v); lia.
Qed.

Lemma mod10_succ x :
  0 ≤ x → (x + 1) mod 10 = 0 ∨ (x + 1) mod 10 = x mod 10 + 1.
Proof.
  intros Hx. pose proof (Z.mod_pos_bound x 10 ltac:(lia)) as Hb.
  rewrite <- Zplus_mod_idemp_l, mod_wrap by lia. case_decide; lia.
Qed.

Lemma lookup_snoc_cases {B} (k : list B) (y x : B) (i : nat) :
  (k ++ [y]) !! i = Some x →
  ((i < length k)%nat ∧ k !! i = Some x) ∨ (i = length k ∧ x = y).
Proof.
  intros [[? ?]|[-> ->]]%lookup_snoc_Some; [left|right]; done.
Qed.

(** X13. Every case of [main] terminates, whatever [rand()] returns: the
    loop ends with status 0 after [max] iterations, or with status 1 in the
    iteration of the first overflow. It prints one line per iteration, each
    with one character per slot; every line but the last shows fewer than
    [array_size] occupied slots; and the indices of the final state are
    inside the array. *)
Theorem simulation_stops ex array_size :
  0 < array_size → 0 ≤ Main.max_iterations ex →
  ∃ v,
    Main.run rand ex array_size = Some v ∧
    (Main.status v = 0 ∧ Main.iterations v = Main.max_iterations ex ∨
     Main.status v = 1 ∧ 0 < Main.iterations v ≤ Main.max_iterations ex) ∧
    Z.of_nat (length (Main.shown v)) = Main.iterations v ∧
    wf array_size (Main.queue v) ∧
    ∀ (i : nat) line, Main.shown v !! i = Some line →
      Z.of_nat (length line.1) = array_size ∧
      0 ≤ line.2 ≤ array_size ∧
      (Z.of_nat i + 1 < Main.iterations v → line.2 < array_size).
Proof.
  intros Hs Hmax. unfold Main.run.
  set (max := Main.max_iterations ex) in *.
  assert (Hloop : ∀ fuel v,
    0 ≤ Main.iterations v ≤ max →
    max - Main.iterations v ≤ Z.of_nat fuel →
    Main.status v = 0 →
    (∃ l, represents array_size (Main.queue v) l ∧
          Z.of_nat (length l) < array_size) →
    Z.of_nat (length (Main.shown v)) = Main.iterations v →
    (∀ (i : nat) line, Main.shown v !! i = Some line →
       Z.of_nat (length line.1) = array_size ∧ 0 ≤ line.2 < array_size) →
    ∃ v',
      Main.loop rand fuel ex array_size v = Some v' ∧
      (Main.status v' = 0 ∧ Main.iterations v' = max ∨
       Main.status v' = 1 ∧ 0 < Main.iterations v' ≤ max) ∧
      Z.of_nat (length (Main.shown v')) = Main.iterations v' ∧
      wf array_size (Main.queue v') ∧
      ∀ (i : nat) line, Main.shown v' !! i = Some line →
        Z.of_nat (length line.1) = array_size ∧
        0 ≤ line.2 ≤ array_size ∧
        (Z.of_nat i + 1 < Main.iterations v' → line.2 < array_size)).
  { induction fuel as [|fuel IH];
      intros v Hit Hfuel Hst (l & Hrep & Hlen) Hshown Hlines.
    - exists v. rewrite loop_stop by (right; lia).
      split_and!; [done|left; lia|done|by eapply represents_wf|].
      intros i line Hi. destruct (Hlines i line Hi) as (? & ? & ?).
      split_and!; [done|lia|lia|lia].
    - destruct (decide (Main.iterations v = max)) as [Hend|Hmore].
      { exists v. rewrite loop_stop by (right; lia).
        split_and!; [done|by left|done|by eapply represents_wf|].
        intros i line Hi. destruct (Hlines i line Hi) as (? & ? & ?).
        split_and!; [done|lia|lia|lia]. }
      destruct (decide (Z.of_nat (length l)
          + (if (Main.arrives rand ex v).1 then 1 else 0) < array_size))
        as [Hroom|Hfull].
      + destruct (iteration_ok ex array_size v l Hst Hrep Hroom)
          as (v' & l' & Hv' & Hst' & Hit' & Hrep' & Hl' & Hshown').
        pose proof (next_length_bounds ex v (Z.of_nat (length l)) ltac:(lia)).
        rewrite (loop_step fuel ex array_size v v') by (done || lia).
        apply IH; [lia|lia|done|exists l'; split; [done|lia]| |].
        * rewrite Hshown', length_app. simpl. lia.
        * intros i line Hi. rewrite Hshown' in Hi.
          apply lookup_snoc_cases in Hi as [[_ Hi]|[_ ->]]; [by eapply Hlines|].
          simpl. rewrite length_fmap.
          destruct Hrep' as ((_ & ? & _) & _). split; [done|lia].
      + destruct (Main.arrives rand ex v).1 eqn:Harr; [|lia].
        destruct (iteration_overflow ex array_size v l Hst Hrep Harr)
          as (v' & Hv' & Hst' & Hit' & Hwf' & _ & Hshown'); [lia|].
        rewrite (loop_step fuel ex array_size v v') by (done || lia).
        exists v'. rewrite loop_stop by (left; lia).
        split_and!; [done|right; lia| |done|].
        * rewrite Hshown', length_app. simpl. lia.
        * intros i line Hi. rewrite Hshown' in Hi.
          apply lookup_snoc_cases in Hi as [[Hlt Hi]|[-> ->]].
          -- destruct (Hlines i line Hi) as (? & ? & ?).
             split_and!; [done|lia|lia|lia].
          -- simpl. rewrite length_fmap.
             pose proof (queue_length_bounds array_size
                           (fifo (Main.queue v'))).
             destruct Hwf' as (_ & ? & _). split_and!; [done|lia|lia|lia]. }
  apply Hloop; simpl; [lia|lia|done| |done|done].
  exists []. split; [by apply represents_empty|simpl; lia].
Qed.

(** X14. Control keeps the queue short: in a case that truncates to 2
    every 10 iterations, with an array of at least 13 slots, no [enqueue]
    ever overflows, whatever [rand()] returns and whatever the arrival and
    departure rules are. The loop runs all its iterations, "OVERFLOW!" is
    not printed, and the line printed in iteration [i] shows at most
    [2 + i mod 10] occupied slots: never more than 11, and at most 2 in
    every tenth line. *)
Theorem control_prevents_overflow ex array_size :
  Main.control ex = true → 13 ≤ array_size → 0 ≤ Main.max_iterations ex →
  ∃ v,
    Main.run rand ex array_size = Some v ∧
    Main.status v = 0 ∧
    Main.overflow_printed v = false ∧
    Main.iterations v = Main.max_iterations ex ∧
    Z.of_nat (length (Main.shown v)) = Main.max_iterations ex ∧
    ∀ (i : nat) line, Main.shown v !! i = Some line →
      0 ≤ line.2 ≤ 2 + (Z.of_nat i + 1) mod 10.
Proof.
  intros Hctl Hs Hmax. unfold Main.run.
  set (max := Main.max_iterations ex) in *.
  assert (Hloop : ∀ fuel v,
    0 ≤ Main.iterations v →
    Main.iterations v + Z.of_nat fuel = max →
    Main.status v = 0 →
    (∃ l, represents array_size (Main.queue v) l ∧
          Z.of_nat (length l) ≤ 2 + Main.iterations v mod 10) →
    Z.of_nat (length (Main.shown v)) = Main.iterations v →
    (∀ (i : nat) line, Main.shown v !! i = Some line →
       0 ≤ line.2 ≤ 2 + (Z.of_nat i + 1) mod 10) →
    ∃ v',
      Main.loop rand fuel ex array_size v = Some v' ∧
      Main.status v' = 0 ∧
      Main.iterations v' = max ∧
      Z.of_nat (length (Main.shown v')) = max ∧
      ∀ (i : nat) line, Main.shown v' !! i = Some line →
        0 ≤ line.2 ≤ 2 + (Z.of_nat i + 1) mod 10).
  { induction fuel as [|fuel IH];
      intros v Hit Hfuel Hst (l & Hrep & Hlen) Hshown Hlines.
    - exists v. rewrite loop_stop by (right; lia).
      split_and!; [done|done|lia|lia|done].
    - pose proof (Z.mod_pos_bound (Main.iterations v) 10 ltac:(lia)) as Hm.
      destruct (iteration_ok ex array_size v l Hst Hrep)
        as (v' & l' & Hv' & Hst' & Hit' & Hrep' & Hl' & Hshown').
      { destruct (Main.arrives rand ex v).1; lia. }
      pose proof (next_length_bounds ex v (Z.of_nat (length l)) ltac:(lia))
        as Hnext.
      assert (Hl'' : Z.of_nat (length l') ≤ 2 + (Main.iterations v + 1) mod 10).
      { rewrite Hl'. unfold Main.next_length, Main.truncates in *.
        rewrite Hctl in *. simpl in *.
        rewrite Z.rem_mod_nonneg in * by lia.
        destruct (mod10_succ (Main.iterations v) Hit) as [E|E].
        - rewrite bool_decide_eq_true_2 in * by done. rewrite E. lia.
        - rewrite bool_decide_eq_false_2 in * by lia.
          destruct (Main.arrives rand ex v).1; lia. }
      rewrite (loop_step fuel ex array_size v v') by (done || lia).
      apply IH; [lia|lia|done|exists l'; split; [done|by rewrite Hit']| |].
      + rewrite Hshown', length_app. simpl. lia.
      + intros i line Hi. rewrite Hshown' in Hi.
        apply lookup_snoc_cases in Hi as [[_ Hi]|[-> ->]]; [by eapply Hlines|].
        simpl. rewrite Hshown. lia. }
  destruct (Hloop (Z.to_nat max) (Main.start array_size))
    as (v & Hv & Hst & Hit & Hshown & Hlines); simpl; try done; try lia.
  { exists []. split; [apply represents_empty; lia|].
    simpl. rewrite Z.mod_0_l; lia. }
  exists v. split_and!; try done.
  unfold Main.overflow_printed. apply bool_decide_eq_false. lia.
Qed.

Lemma dequeue_full {A} size (q : state A) (k : list A) :
  represents size q k → Z.of_nat (length k) = size →
  rd (fifo (dequeue size q).1) (head (dequeue size q).1) = NULL ∧
  queue_length size (fifo (dequeue size q).1) = size - 1.
Proof.
  intros Hrep Hfull.
  destruct (represents_full _ _ _ Hrep Hfull) as [Heq _].
  pose proof (represents_head _ _ _ Hrep) as Hx.
  pose proof (queue_length_represents _ _ _ Hrep) as Hl.
  pose proof Hrep as ((Hs & Hn & Hh & Ht) & _).
  destruct k as [|x k]; [simpl in Hfull; lia|]. simpl in Hx.
  assert (Hd : dequeue size q
               = (State (wr (fifo q) (head q) NULL) (head q) (tail q), Some x)).
  { unfold dequeue. rewrite Hx. simpl. by rewrite decide_False by tauto. }
  rewrite Hd. simpl. split; [apply rd_wr_eq; lia|].
  rewrite queue_length_wr by done. rewrite Hx. unfold occ. simpl. lia.
Qed.

(** X15. A case that enqueues in every iteration and never dequeues
    (Example 1) stops with status 1 after exactly [array_size] iterations,
    when the loop bound allows that many: "OVERFLOW!" is printed, and the
    line of iteration [i] shows [i] occupied slots. *)
Theorem arrivals_only_overflow ex array_size :
  Main.arrival ex = Main.Always → Main.departure ex = Main.Never →
  Main.control ex = false →
  0 < array_size ≤ Main.max_iterations ex →
  ∃ v,
    Main.run rand ex array_size = Some v ∧
    Main.status v = 1 ∧
    Main.overflow_printed v = true ∧
    Main.iterations v = array_size ∧
    Z.of_nat (length (Main.shown v)) = array_size ∧
    ∀ (i : nat) line, Main.shown v !! i = Some line →
      line.2 = Z.of_nat i + 1.
Proof.
  intros Harrival Hdeparture Hcontrol Hs. unfold Main.run.
  assert (Harr : ∀ v, (Main.arrives rand ex v).1 = true)
    by (intros v; unfold Main.arrives; by rewrite Harrival).
  assert (Hdep : ∀ v, (Main.departs rand ex v).1 = false)
    by (intros v; unfold Main.departs; by rewrite Hdeparture).
  assert (Htr : ∀ v, Main.truncates ex v = false)
    by (intros v; unfold Main.truncates; by rewrite Hcontrol).
  assert (Hloop : ∀ fuel v,
    0 ≤ Main.iterations v < array_size →
    array_size - Main.iterations v ≤ Z.of_nat fuel →
    Main.status v = 0 →
    (∃ l, represents array_size (Main.queue v) l ∧
          Z.of_nat (length l) = Main.iterations v) →
    Z.of_nat (length (Main.shown v)) = Main.iterations v →
    (∀ (i : nat) line, Main.shown v !! i = Some line →
       line.2 = Z.of_nat i + 1) →
    ∃ v',
      Main.loop rand fuel ex array_size v = Some v' ∧
      Main.status v' = 1 ∧
      Main.iterations v' = array_size ∧
      Z.of_nat (length (Main.shown v')) = array_size ∧
      ∀ (i : nat) line, Main.shown v' !! i = Some line →
        line.2 = Z.of_nat i + 1).
  { induction fuel as [|fuel IH];
      intros v Hit Hfuel Hst (l & Hrep & Hlen) Hshown Hlines; [lia|].
    destruct (decide (Main.iterations v + 1 < array_size)) as [Hroom|Hlast].
    - destruct (iteration_ok ex array_size v l Hst Hrep)
        as (v' & l' & Hv' & Hst' & Hit' & Hrep' & Hl' & Hshown').
      { rewrite Harr. lia. }
      unfold Main.next_length in Hl'. rewrite Harr, Hdep, Htr in Hl'.
      rewrite (loop_step fuel ex array_size v v') by (done || lia).
      apply IH; [lia|lia|done|exists l'; split; [done|lia]| |].
      + rewrite Hshown', length_app. simpl. lia.
      + intros i line Hi. rewrite Hshown' in Hi.
        apply lookup_snoc_cases in Hi as [[_ Hi]|[-> ->]]; [by eapply Hlines|].
        simpl. lia.
    - destruct (iteration_overflow ex array_size v l Hst Hrep (Harr v))
        as (v' & Hv' & Hst' & Hit' & Hwf' & Hq' & Hshown'); [lia|].
      rewrite (loop_step fuel ex array_size v v') by (done || lia).
      exists v'. rewrite loop_stop by (left; lia).
      split_and!; [done|done|lia| |].
      + rewrite Hshown', length_app. simpl. lia.
      + intros i line Hi. rewrite Hshown' in Hi.
        apply lookup_snoc_cases in Hi as [[_ Hi]|[-> ->]]; [by eapply Hlines|].
        simpl. rewrite (Hq' (Htr v)).
        unfold Main.after_departure, Main.after_arrival. rewrite Hdep, Harr.
        destruct (enqueue_overflow array_size _ l "ab"%string Hrep)
          as (_ & Hrep1 & Hfull); [lia|].
        rewrite (queue_length_represents _ _ _ Hrep1). lia. }
  destruct (Hloop (Z.to_nat (Main.max_iterations ex)) (Main.start array_size))
    as (v & Hv & Hst & Hit & Hshown & Hlines); simpl; try done; try lia.
  { exists []. split; [apply represents_empty; lia|done]. }
  exists v. split_and!; try done.
  unfold Main.overflow_printed. by apply bool_decide_eq_true.
Qed.

(** X16. A case that enqueues in every iteration and dequeues in every
    second one (Example 2) stops with status 1 in iteration
    [2 * array_size - 2], when the loop bound allows it. The line of
    iteration [i] shows [(i + 1) / 2] occupied slots. The last iteration
    dequeues from the full array, so the loop ends with [array_size - 1]
    occupied slots and an empty slot at [head]. *)
Theorem alternating_departures_overflow ex array_size :
  Main.arrival ex = Main.Always → Main.departure ex = Main.Every 2 →
  Main.control ex = false →
  2 ≤ array_size → 2 * array_size - 2 ≤ Main.max_iterations ex →
  ∃ v,
    Main.run rand ex array_size = Some v ∧
    Main.status v = 1 ∧
    Main.overflow_printed v = true ∧
    Main.iterations v = 2 * array_size - 2 ∧
    rd (fifo (Main.queue v)) (head (Main.queue v)) = NULL ∧
    queue_length array_size (fifo (Main.queue v)) = array_size - 1 ∧
    ∀ (i : nat) line, Main.shown v !! i = Some line →
      line.2 = (Z.of_nat i + 2) / 2.
Proof.
  intros Harrival Hdeparture Hcontrol Hs Hmax. unfold Main.run.
  assert (Harr : ∀ v, (Main.arrives rand ex v).1 = true)
    by (intros v; unfold Main.arrives; by rewrite Harrival).
  assert (Hdep : ∀ v, (Main.departs rand ex v).1
                      = bool_decide (Z.rem (Main.iterations v + 1) 2 = 0))
    by (intros v; unfold Main.departs; by rewrite Hdeparture).
  assert (Htr : ∀ v, Main.truncates ex v = false)
    by (intros v; unfold Main.truncates; by rewrite Hcontrol).
  assert (Hloop : ∀ fuel v,
    0 ≤ Main.iterations v < 2 * array_size - 2 →
    2 * array_size - 2 - Main.iterations v ≤ Z.of_nat fuel →
    Main.status v = 0 →
    (∃ l, represents array_size (Main.queue v) l ∧
          Z.of_nat (length l) = (Main.iterations v + 1) / 2) →
    Z.of_nat (length (Main.shown v)) = Main.iterations v →
    (∀ (i : nat) line, Main.shown v !! i = Some line →
       line.2 = (Z.of_nat i + 2) / 2) →
    ∃ v',
      Main.loop rand fuel ex array_size v = Some v' ∧
      Main.status v' = 1 ∧
      Main.iterations v' = 2 * array_size - 2 ∧
      rd (fifo (Main.queue v')) (head (Main.queue v')) = NULL ∧
      queue_length array_size (fifo (Main.queue v')) = array_size - 1 ∧
      ∀ (i : nat) line, Main.shown v' !! i = Some line →
        line.2 = (Z.of_nat i + 2) / 2).
  { induction fuel as [|fuel IH];
      intros v Hit Hfuel Hst (l & Hrep & Hlen) Hshown Hlines; [lia|].
    destruct (decide (Main.iterations v + 1 < 2 * array_size - 2))
      as [Hroom|Hlast].
    - destruct (iteration_ok ex array_size v l Hst Hrep)
        as (v' & l' & Hv' & Hst' & Hit' & Hrep' & Hl' & Hshown').
      { rewrite Harr, Hlen. Z.div_mod_to_equations. lia. }
      assert (Hl'' : Z.of_nat (length l') = (Main.iterations v' + 1) / 2).
      { rewrite Hl', Hit'. unfold Main.next_length.
        rewrite Harr, Hdep, Htr, Hlen, Z.rem_mod_nonneg by lia.
        case_bool_decide; Z.div_mod_to_equations; lia. }
      rewrite (loop_step fuel ex array_size v v') by (done || lia).
      apply IH; [lia|lia|done|by exists l'| |].
      + rewrite Hshown', length_app. simpl. lia.
      + intros i line Hi. rewrite Hshown' in Hi.
        apply lookup_snoc_cases in Hi as [[_ Hi]|[-> ->]]; [by eapply Hlines|].
        simpl. rewrite Hl'', Hit'. f_equal. lia.
    - assert (Hfull : Z.of_nat (length l) + 1 = array_size)
        by (rewrite Hlen; Z.div_mod_to_equations; lia).
      destruct (iteration_overflow ex array_size v l Hst Hrep (Harr v) Hfull)
        as (v' & Hv' & Hst' & Hit' & Hwf' & Hq' & Hshown').
      destruct (enqueue_overflow array_size _ l "ab"%string Hrep Hfull)
        as (_ & Hrep1 & Hfull1).
      destruct (dequeue_full array_size _ _ Hrep1 Hfull1) as [Hnull Hcount].
      assert (Hqueue : Main.queue v'
        = (dequeue array_size
             (enqueue array_size (Main.queue v) (Some "ab"%string)).1).1).
      { rewrite (Hq' (Htr v)).
        unfold Main.after_departure, Main.after_arrival.
        rewrite Hdep, Harr, Z.rem_mod_nonneg by lia.
        rewrite bool_decide_eq_true_2; [done|].
        replace (Main.iterations v + 1) with ((array_size - 1) * 2) by lia.
        apply Z_mod_mult. }
      rewrite (loop_step fuel ex array_size v v') by (done || lia).
      exists v'. rewrite loop_stop by (left; lia).
      rewrite Hqueue. split_and!; [done|done|lia|done|done|].
      intros i line Hi. rewrite Hshown' in Hi.
      apply lookup_snoc_cases in Hi as [[_ Hi]|[-> ->]]; [by eapply Hlines|].
      simpl. rewrite Hqueue, Hcount, Hshown.
      Z.div_mod_to_equations. lia. }
  destruct (Hloop (Z.to_nat (Main.max_iterations ex)) (Main.start array_size))
    as (v & Hv & Hst & Hit & Hnull & Hcount & Hlines);
    simpl; try done; try lia.
  { exists []. split; [apply represents_empty; lia|done]. }
  exists v. split_and!; try done.
  unfold Main.overflow_printed. by apply bool_decide_eq_true.
Qed.

End simulation.

(** ** The further properties at concrete states *)

Lemma represents_three_of_four : represents 4 three_of_four three_arrivals.
Proof.
  apply (enqueue_all_room 4 three_arrivals (empty 4) []);
    [apply represents_empty; lia|simpl; lia].
Qed.

Lemma represents_overflowed : represents 2 overflowed ["ab"; "cd"]%string.
Proof.
  destruct (enqueue_all_room 2 ["ab"%string] (empty 2) []) as [Hrep _];
    [apply represents_empty; lia|simpl; lia|].
  apply (enqueue_represents 2 _ _ "cd"%string Hrep). simpl. lia.
Qed.

Lemma operations_keep_indices_in_range_three_of_four :
  wf 4 three_of_four ∧
  wf 4 (enqueue 4 three_of_four NULL).1 ∧
  wf 4 (dequeue 4 three_of_four).1 ∧
  ∃ q', check_and_truncate 4 three_of_four (-1) = Some q' ∧ wf 4 q'.
Proof.
  split; [exact wf_three_of_four|].
  apply (operations_keep_indices_in_range 4 three_of_four NULL (-1)).
  exact wf_three_of_four.
Defined.

Lemma occupancy_accounting_overflowed :
  wf 2 overflowed ∧
  queue_length 2 (fifo (enqueue 2 overflowed (Some "ef"%string)).1)
    = queue_length 2 (fifo overflowed) + 1
      - occ (rd (fifo overflowed) (tail overflowed)) ∧
  queue_length 2 (fifo (dequeue 2 overflowed).1)
    = queue_length 2 (fifo overflowed)
      - occ (rd (fifo overflowed) (head overflowed)).
Proof.
  split; [exact wf_overflowed|].
  apply (occupancy_accounting 2 overflowed "ef"%string). exact wf_overflowed.
Defined.

Lemma enqueue_appends_three_of_four :
  represents 4 three_of_four three_arrivals ∧
  Z.of_nat (length three_arrivals) < 4 ∧
  represents 4 (enqueue 4 three_of_four (Some "gh"%string)).1
             (three_arrivals ++ ["gh"%string]) ∧
  ((enqueue 4 three_of_four (Some "gh"%string)).2 = 0
   ↔ Z.of_nat (length three_arrivals) + 1 < 4) ∧
  ((enqueue 4 three_of_four (Some "gh"%string)).2 = 1
   ↔ Z.of_nat (length three_arrivals) + 1 = 4).
Proof.
  assert (Hroom : Z.of_nat (length three_arrivals) < 4) by (simpl; lia).
  split; [exact represents_three_of_four|]. split; [exact Hroom|].
  apply (enqueue_appends 4 three_of_four three_arrivals "gh"%string);
    [exact represents_three_of_four|exact Hroom].
Defined.

Lemma dequeue_takes_oldest_three_of_four :
  represents 4 three_of_four three_arrivals ∧
  Z.of_nat (length three_arrivals) < 4 ∧
  (dequeue 4 three_of_four).2 = three_arrivals !! 0%nat ∧
  represents 4 (dequeue 4 three_of_four).1 (drop 1 three_arrivals).
Proof.
  assert (Hroom : Z.of_nat (length three_arrivals) < 4) by (simpl; lia).
  split; [exact represents_three_of_four|]. split; [exact Hroom|].
  apply (dequeue_takes_oldest 4 three_of_four three_arrivals);
    [exact represents_three_of_four|exact Hroom].
Defined.

Lemma perform_all_refines_fifo_wrapping :
  represents 3 (@empty string 3) [] ∧
  Z.of_nat (length (@nil string)) < 3 ∧
  fifo_fits 3 [] wrapping_calls ∧
  ∃ q', perform_all 3 (empty 3) wrapping_calls
          = Some (q', (fifo_run 3 [] wrapping_calls).2) ∧
        represents 3 q' (fifo_run 3 [] wrapping_calls).1 ∧
        Z.of_nat (length (fifo_run 3 [] wrapping_calls).1) < 3.
Proof.
  assert (Hrep : represents 3 (@empty string 3) [])
    by (apply represents_empty; lia).
  assert (Hroom : Z.of_nat (length (@nil string)) < 3) by (simpl; lia).
  assert (Hfits : fifo_fits 3 [] wrapping_calls) by (simpl; lia).
  split; [exact Hrep|]. split; [exact Hroom|]. split; [exact Hfits|].
  apply (perform_all_refines_fifo 3 wrapping_calls (empty 3) []);
    [exact Hrep|exact Hroom|exact Hfits].
Defined.

Lemma truncation_is_idempotent_three_of_four :
  wf 4 three_of_four ∧
  check_and_truncate 4 three_of_four 1
    = Some (State [None; None; Some "ef"%string; None] 2 3) ∧
  1 ≤ 5 ∧
  check_and_truncate 4 (State [None; None; Some "ef"%string; None] 2 3) 5
    = Some (State [None; None; Some "ef"%string; None] 2 3).
Proof.
  split; [exact wf_three_of_four|]. split; [reflexivity|]. split; [lia|].
  apply (truncation_is_idempotent 4 three_of_four 1 5);
    [exact wf_three_of_four|reflexivity|lia].
Defined.

Lemma truncation_composes_three_of_four :
  represents 4 three_of_four three_arrivals ∧ 1 ≤ 2 ∧
  check_and_truncate 4 three_of_four 2
    = Some (State [None; Some "cd"; Some "ef"; None]%string 1 3) ∧
  check_and_truncate 4 (State [None; Some "cd"; Some "ef"; None]%string 1 3) 1
    = check_and_truncate 4 three_of_four 1.
Proof.
  split; [exact represents_three_of_four|]. split; [lia|].
  split; [reflexivity|].
  apply (truncation_composes 4 three_of_four three_arrivals 2 1);
    [exact represents_three_of_four|lia|reflexivity].
Defined.

Lemma truncation_to_nothing_three_of_four :
  represents 4 three_of_four three_arrivals ∧ -3 ≤ 0 ∧
  ∃ q', check_and_truncate 4 three_of_four (-3) = Some q' ∧
        represents 4 q' [] ∧
        queue_length 4 (fifo q') = 0 ∧
        head q' = tail q'.
Proof.
  split; [exact represents_three_of_four|]. split; [lia|].
  apply (truncation_to_nothing 4 three_of_four three_arrivals (-3));
    [exact represents_three_of_four|lia].
Defined.

Lemma dequeue_from_full_overflowed :
  represents 2 overflowed ["ab"; "cd"]%string ∧
  Z.of_nat (length ["ab"; "cd"]%string) = 2 ∧
  (dequeue 2 overflowed).2 = Some "ab"%string ∧
  queue_length 2 (fifo (dequeue 2 overflowed).1) = 2 - 1 ∧
  dequeue_n 2 (dequeue 2 overflowed).1 3
    = ((dequeue 2 overflowed).1, replicate 3 NULL) ∧
  check_and_truncate 2 (dequeue 2 overflowed).1 0
    = Some (dequeue 2 overflowed).1.
Proof.
  split; [exact represents_overflowed|]. split; [reflexivity|].
  destruct (dequeue_from_full_strands_the_rest 2 overflowed
              ["ab"; "cd"]%string 3 0 represents_overflowed eq_refl)
    as (Hout & _ & _ & Hcount & _ & Hlater & Htrunc).
  split; [exact Hout|]. split; [exact Hcount|]. split; [exact Hlater|].
  exact Htrunc.
Defined.

Lemma capacity_one_empty :
  wf 1 (@empty string 1) ∧
  (enqueue 1 (empty 1) (Some "ab"%string)).2 = 1 ∧
  dequeue 1 (enqueue 1 (empty 1) (Some "ab"%string)).1
    = (empty 1, Some "ab"%string).
Proof.
  assert (Hwf : wf 1 (@empty string 1)) by wf_by_computation.
  split; [exact Hwf|]. apply (capacity_one (empty 1) "ab"%string). exact Hwf.
Defined.

Lemma queue_length_counts_three_of_four :
  Z.of_nat (length (fifo three_of_four)) = 4 ∧
  queue_length 4 (fifo three_of_four)
    = Z.of_nat (length (filter is_Some (fifo three_of_four))).
Proof.
  split; [reflexivity|].
  apply (queue_length_counts_occupied 4 (fifo three_of_four)). reflexivity.
Defined.

Lemma show_queue_three_of_four :
  Z.of_nat (length (fifo three_of_four)) = 4 ∧
  show_queue (fifo three_of_four) 4
    = (mark <$> fifo three_of_four, queue_length 4 (fifo three_of_four)) ∧
  (show_queue (fifo three_of_four) 4).1 = ["*"; "*"; "*"; " "]%char.
Proof.
  split; [reflexivity|].
  destruct (show_queue_displays_slots 4 (fifo three_of_four) eq_refl)
    as (Hshow & _).
  split; [exact Hshow|reflexivity].
Defined.

Lemma simulation_stops_case3 :
  Main.example_case 3 = Some case3 ∧
  0 < 20 ∧ 0 ≤ Main.max_iterations case3 ∧
  ∃ v, Main.run sample_rand case3 20 = Some v ∧
       (Main.status v = 0 ∧ Main.iterations v = Main.max_iterations case3 ∨
        Main.status v = 1 ∧
        0 < Main.iterations v ≤ Main.max_iterations case3).
Proof.
  split; [reflexivity|]. split; [lia|]. split; [simpl; lia|].
  destruct (simulation_stops sample_rand case3 20) as (v & Hrun & Hend & _);
    [lia|simpl; lia|].
  exists v. split; [exact Hrun|exact Hend].
Defined.

Lemma control_prevents_overflow_case7 :
  Main.example_case 7 = Some case7 ∧
  Main.control case7 = true ∧ 13 ≤ 20 ∧ 0 ≤ Main.max_iterations case7 ∧
  ∃ v, Main.run sample_rand case7 20 = Some v ∧
       Main.status v = 0 ∧
       Main.overflow_printed v = false ∧
       Main.iterations v = Main.max_iterations case7.
Proof.
  split; [reflexivity|]. split; [reflexivity|]. split; [lia|].
  split; [simpl; lia|].
  destruct (control_prevents_overflow sample_rand case7 20)
    as (v & Hrun & Hst & Hpr & Hit & _); [reflexivity|lia|simpl; lia|].
  exists v. split; [exact Hrun|]. split; [exact Hst|]. split; [exact Hpr|].
  exact Hit.
Defined.

Lemma arrivals_only_overflow_case1 :
  Main.example_case 1 = Some case1 ∧
  0 < 20 ≤ Main.max_iterations case1 ∧
  ∃ v, Main.run sample_rand case1 20 = Some v ∧
       Main.status v = 1 ∧
       Main.overflow_printed v = true ∧
       Main.iterations v = 20.
Proof.
  split; [reflexivity|]. split; [simpl; lia|].
  destruct (arrivals_only_overflow sample_rand case1 20)
    as (v & Hrun & Hst & Hpr & Hit & _); [reflexivity..|simpl; lia|].
  exists v. split; [exact Hrun|]. split; [exact Hst|]. split; [exact Hpr|].
  exact Hit.
Defined.

Lemma alternating_departures_overflow_case2 :
  Main.example_case 2 = Some case2 ∧
  2 ≤ 20 ∧ 2 * 20 - 2 ≤ Main.max_iterations case2 ∧
  ∃ v, Main.run sample_rand case2 20 = Some v ∧
       Main.status v = 1 ∧
       Main.iterations v = 38 ∧
       queue_length 20 (fifo (Main.queue v)) = 19.
Proof.
  split; [reflexivity|]. split; [lia|]. split; [simpl; lia|].
  destruct (alternating_departures_overflow sample_rand case2 20)
    as (v & Hrun & Hst & _ & Hit & _ & Hcount & _);
    [reflexivity..|lia|simpl; lia|].
  exists v. split; [exact Hrun|]. split; [exact Hst|]. split; [exact Hit|].
  exact Hcount.
Defined.

Lemma perform_all_completes_overflowing :
  wf 2 (@empty string 2) ∧
  ∃ q' rs, perform_all 2 (empty 2) overflowing_calls = Some (q', rs) ∧
           wf 2 q' ∧ length rs = length overflowing_calls.
Proof.
  assert (Hwf : wf 2 (@empty string 2)) by wf_by_computation.
  split; [exact Hwf|].
  apply (perform_all_completes 2 overflowing_calls (empty 2)). exact Hwf.
Defined.

End Fifo.
